(** * Minimax search with alpha-beta pruning over a chess rules engine

    A shallow embedding of [Assignment3/chess.py]: the [State] wrapper around a
    python-chess board, its static evaluation and the depth-limited
    [minimax] search, and the loop of [play_game] around them.  The rules
    engine (python-chess) is an external collaborator; it is modelled as a
    record of the queries the program makes, and every statement below is
    made for an arbitrary engine. *)

From Stdlib Require Import ZArith QArith List String Bool Lia Lqa.
From Stdlib Require Import Floats.SpecFloat.
From Stdlib Require DecimalString DecimalZ.
Import ListNotations.

Local Open Scope Z_scope.

(** ** Python numbers

    The scores handled by the program are Python numbers: the evaluation
    returns the [int] objects [-10000], [10000] and [0] on finished games and a
    [float] otherwise, and the search starts from [float('-inf')] and
    [float('inf')].  A [float] is an IEEE 754 binary64 value. *)

Inductive pynum : Type :=
| PyInt (z : Z)
| PyFloat (f : spec_float).

Definition prec : Z := 53.
Definition emax : Z := 1024.

Definition b64_add : spec_float -> spec_float -> spec_float := SFadd prec emax.
Definition b64_sub : spec_float -> spec_float -> spec_float := SFsub prec emax.
Definition b64_mul : spec_float -> spec_float -> spec_float := SFmul prec emax.

(** [float(z)] for a Python [int]: the nearest binary64 value, ties to even.
    CPython raises [OverflowError] once [|z| >= 2^1024]; the integers converted
    by the program are lengths of move lists and of attacker sets. *)
Definition float_of_int (z : Z) : spec_float := binary_normalize prec emax z 0 false.

(** The float literals of the source. *)
Definition f0_0 : spec_float := S754_zero false.
Definition f1_0 : spec_float := S754_finite false 4503599627370496 (-52).
Definition f4_0 : spec_float := S754_finite false 4503599627370496 (-50).
Definition f6_0 : spec_float := S754_finite false 6755399441055744 (-50).
Definition f10_0 : spec_float := S754_finite false 5629499534213120 (-49).
Definition f200_0 : spec_float := S754_finite false 7036874417766400 (-45).
Definition f0_2 : spec_float := S754_finite false 7205759403792794 (-55).
Definition f0_05 : spec_float := S754_finite false 7205759403792794 (-57).
Definition f0_5 : spec_float := S754_finite false 4503599627370496 (-53).

(** [float('-inf')] and [float('inf')]. *)
Definition neg_inf : pynum := PyFloat (S754_infinity true).
Definition pos_inf : pynum := PyFloat (S754_infinity false).

(** The mathematical value of a number: an extended rational, or nothing for
    a NaN. *)
Inductive ext : Type :=
| NegInf
| Fin (q : Q)
| PosInf.

Definition float_value (f : spec_float) : option ext :=
  match f with
  | S754_zero _ => Some (Fin 0%Q)
  | S754_infinity s => Some (if s then NegInf else PosInf)
  | S754_nan => None
  | S754_finite s m e =>
      Some (Fin (inject_Z (cond_Zopp s (Zpos m)) * Qpower 2 e)%Q)
  end.

Definition py_value (x : pynum) : option ext :=
  match x with
  | PyInt z => Some (Fin (inject_Z z))
  | PyFloat f => float_value f
  end.

Definition ext_compare (a b : ext) : comparison :=
  match a, b with
  | NegInf, NegInf => Eq
  | NegInf, _ => Lt
  | Fin _, NegInf => Gt
  | Fin p, Fin q => Qcompare p q
  | Fin _, PosInf => Lt
  | PosInf, PosInf => Eq
  | PosInf, _ => Gt
  end.

(** Python compares an [int] with a [float], and two floats, by their exact
    values; every comparison with a NaN is false. *)
Definition py_compare (x y : pynum) : option comparison :=
  match py_value x, py_value y with
  | Some a, Some b => Some (ext_compare a b)
  | _, _ => None
  end.

(** [x < y], [x > y], [x >= y] and [x == y]. *)
Definition py_lt (x y : pynum) : bool :=
  match py_compare x y with Some Lt => true | _ => false end.
Definition py_gt (x y : pynum) : bool :=
  match py_compare x y with Some Gt => true | _ => false end.
Definition py_ge (x y : pynum) : bool :=
  match py_compare x y with Some Gt | Some Eq => true | _ => false end.
Definition py_eq (x y : pynum) : bool :=
  match py_compare x y with Some Eq => true | _ => false end.

(** The builtins [max(a, b)] and [min(a, b)]: the first argument is kept
    unless the second is strictly greater (smaller). *)
Definition py_max (a b : pynum) : pynum := if py_gt b a then b else a.
Definition py_min (a b : pynum) : pynum := if py_lt b a then b else a.

(** ** The rules engine

    python-chess, as far as the program uses it.  Colours are booleans
    ([chess.WHITE] is [True]), squares and piece types are small integers. *)

Definition WHITE : bool := true.
Definition BLACK : bool := false.

Definition PAWN : Z := 1.
Definition KNIGHT : Z := 2.
Definition BISHOP : Z := 3.
Definition ROOK : Z := 4.
Definition QUEEN : Z := 5.
Definition KING : Z := 6.

Definition D4 : Z := 27.
Definition E4 : Z := 28.
Definition D5 : Z := 35.
Definition E5 : Z := 36.

Record Piece : Type := { piece_type : Z; color : bool }.

(** One field per query of [chess.Board] made by the program.  A board is a
    value here: [copy()] is the identity, [push] returns the board after the
    move and [set_turn] the board after the assignment [b.turn = c].
    [peek()] raises on an empty move stack; the program calls it on boards it
    has just pushed a move on.

    Three more queries are never made by the program and only serve to state
    what the engine's answers mean: [epd], the configuration part of the FEN
    string (placement, side to move, castling and en-passant rights), and the
    two automatic draws [is_seventyfive_moves] and [is_fivefold_repetition]. *)
Record RulesEngine : Type := {
  Board : Type;
  Move : Type;
  is_game_over : Board -> bool;
  legal_moves : Board -> list Move;
  push : Board -> Move -> Board;
  peek : Board -> Move;
  fen : Board -> string;
  epd : Board -> string;
  is_seventyfive_moves : Board -> bool;
  is_fivefold_repetition : Board -> bool;
  is_checkmate : Board -> bool;
  is_stalemate : Board -> bool;
  is_insufficient_material : Board -> bool;
  can_claim_draw : Board -> bool;
  turn : Board -> bool;
  set_turn : Board -> bool -> Board;
  piece_map : Board -> list (Z * Piece);
  piece_at : Board -> Z -> option Piece;
  king : Board -> bool -> option Z;
  attackers : Board -> bool -> Z -> list Z
}.

(** ** The program *)

Section Program.

Context {E : RulesEngine}.

(** Python's builtin [hash] on strings. *)
Variable hash : string -> Z.

(** [class State]: a wrapper around one board. *)
Record State : Type := { board : Board E }.

Definition isTerminal (self : State) : bool :=
  is_game_over E (board self).

Definition moveGen (self : State) : list State :=
  map (fun move => {| board := push E (board self) move |})
      (legal_moves E (board self)).

Definition State_eq (self other : State) : bool :=
  String.eqb (fen E (board self)) (fen E (board other)).

Definition State_hash (self : State) : Z :=
  hash (fen E (board self)).

(** [piece_values.get(piece.piece_type, 0)], as the float added to the
    score. *)
Definition piece_values (pt : Z) : spec_float :=
  if pt =? PAWN then f1_0
  else if pt =? KNIGHT then f4_0
  else if pt =? BISHOP then f4_0
  else if pt =? ROOK then f6_0
  else if pt =? QUEEN then f10_0
  else if pt =? KING then f200_0
  else float_of_int 0.

Definition material_step (score : spec_float) (item : Z * Piece) : spec_float :=
  let value := piece_values (piece_type (snd item)) in
  if color (snd item) then b64_add score value else b64_sub score value.

Definition center_step (b : Board E) (score : spec_float) (sq : Z) : spec_float :=
  match piece_at E b sq with
  | Some piece =>
      if color piece then b64_add score f0_2 else b64_sub score f0_2
  | None => score
  end.

Definition center_squares : list Z := [D4; E4; D5; E5].

Definition len {A : Type} (l : list A) : Z := Z.of_nat (List.length l).

Definition heuristic (b : Board E) : spec_float :=
  let score := f0_0 in
  let score := fold_left material_step (piece_map E b) score in
  let score := fold_left (center_step b) center_squares score in
  let white_moves := len (legal_moves E (set_turn E b WHITE)) in
  let black_moves := len (legal_moves E (set_turn E (set_turn E b WHITE) BLACK)) in
  let score := b64_add score (b64_mul f0_05 (float_of_int (white_moves - black_moves))) in
  let score :=
    match king E b WHITE with
    | Some white_king_sq =>
        let attackers := attackers E b BLACK white_king_sq in
        b64_sub score (b64_mul f0_5 (float_of_int (len attackers)))
    | None => score
    end in
  let score :=
    match king E b BLACK with
    | Some black_king_sq =>
        let attackers := attackers E b WHITE black_king_sq in
        b64_add score (b64_mul f0_5 (float_of_int (len attackers)))
    | None => score
    end in
  score.

Definition evaluate (self : State) : pynum :=
  let b := board self in
  if is_checkmate E b then
    if Bool.eqb (turn E b) WHITE then PyInt (-10000) else PyInt 10000
  else if is_stalemate E b || is_insufficient_material E b || can_claim_draw E b then
    PyInt 0
  else PyFloat (heuristic b).

Definition result : Type := (pynum * option (Move E))%type.

(** The loop of a MAX node: [rec] is the recursive call on a child with the
    current bounds; [None] is a call that did not return. *)
Fixpoint max_loop (rec : State -> pynum -> pynum -> option result)
    (children : list State) (maxEval : pynum) (best_move : option (Move E))
    (alpha beta : pynum) : option result :=
  match children with
  | [] => Some (maxEval, best_move)
  | child :: rest =>
      match rec child alpha beta with
      | None => None
      | Some (eval_score, _) =>
          let '(maxEval, best_move) :=
            if py_gt eval_score maxEval
            then (eval_score, Some (peek E (board child)))
            else (maxEval, best_move) in
          let alpha := py_max alpha eval_score in
          if py_ge alpha beta then Some (maxEval, best_move)
          else max_loop rec rest maxEval best_move alpha beta
      end
  end.

(** The loop of a MIN node. *)
Fixpoint min_loop (rec : State -> pynum -> pynum -> option result)
    (children : list State) (minEval : pynum) (best_move : option (Move E))
    (alpha beta : pynum) : option result :=
  match children with
  | [] => Some (minEval, best_move)
  | child :: rest =>
      match rec child alpha beta with
      | None => None
      | Some (eval_score, _) =>
          let '(minEval, best_move) :=
            if py_lt eval_score minEval
            then (eval_score, Some (peek E (board child)))
            else (minEval, best_move) in
          let beta := py_min beta eval_score in
          if py_ge alpha beta then Some (minEval, best_move)
          else min_loop rec rest minEval best_move alpha beta
      end
  end.

(** [minimax]: the recursion of the source, bounded by [fuel] nested calls;
    [None] means the bound was reached before the call returned. *)
Fixpoint minimax (fuel : nat) (state : State) (depth : Z) (alpha beta : pynum)
    (maximizingPlayer : bool) (maxDepth : Z) {struct fuel} : option result :=
  match fuel with
  | O => None
  | S fuel' =>
      if isTerminal state || (depth =? maxDepth) then
        Some (evaluate state, None)
      else if maximizingPlayer then
        max_loop
          (fun child alpha beta =>
             minimax fuel' child (depth + 1) alpha beta false maxDepth)
          (moveGen state) neg_inf None alpha beta
      else
        min_loop
          (fun child alpha beta =>
             minimax fuel' child (depth + 1) alpha beta true maxDepth)
          (moveGen state) pos_inf None alpha beta
  end.

End Program.

Arguments State E : clear implicits.
Arguments result E : clear implicits.

(** ** Variants of the search named by the specification *)

Section Variants.

Context {E : RulesEngine}.

(** The unpruned search: [alpha] and [beta] stay at minus and plus infinity
    and the early [break] is removed, so they no longer occur. *)
Fixpoint max_loop_full (rec : State E -> option (result E))
    (children : list (State E)) (maxEval : pynum) (best_move : option (Move E))
    : option (result E) :=
  match children with
  | [] => Some (maxEval, best_move)
  | child :: rest =>
      match rec child with
      | None => None
      | Some (eval_score, _) =>
          let '(maxEval, best_move) :=
            if py_gt eval_score maxEval
            then (eval_score, Some (peek E (board child)))
            else (maxEval, best_move) in
          max_loop_full rec rest maxEval best_move
      end
  end.

Fixpoint min_loop_full (rec : State E -> option (result E))
    (children : list (State E)) (minEval : pynum) (best_move : option (Move E))
    : option (result E) :=
  match children with
  | [] => Some (minEval, best_move)
  | child :: rest =>
      match rec child with
      | None => None
      | Some (eval_score, _) =>
          let '(minEval, best_move) :=
            if py_lt eval_score minEval
            then (eval_score, Some (peek E (board child)))
            else (minEval, best_move) in
          min_loop_full rec rest minEval best_move
      end
  end.

Fixpoint minimax_full (fuel : nat) (state : State E) (depth : Z)
    (maximizingPlayer : bool) (maxDepth : Z) {struct fuel} : option (result E) :=
  match fuel with
  | O => None
  | S fuel' =>
      if isTerminal state || (depth =? maxDepth) then
        Some (evaluate state, None)
      else if maximizingPlayer then
        max_loop_full
          (fun child => minimax_full fuel' child (depth + 1) false maxDepth)
          (moveGen state) neg_inf None
      else
        min_loop_full
          (fun child => minimax_full fuel' child (depth + 1) true maxDepth)
          (moveGen state) pos_inf None
  end.

(** The two ways of advancing a node's bound: from the score the child
    returned (the source) or from the running best (the textbook). *)
Inductive bound_rule : Type :=
| FromChild
| FromBest.

Definition next_bound (rule : bound_rule) (pick : pynum -> pynum -> pynum)
    (bound eval_score best : pynum) : pynum :=
  match rule with
  | FromChild => pick bound eval_score
  | FromBest => pick bound best
  end.

(** A result together with the states the search entered, in order. *)
Definition traced : Type := (result E * list (State E))%type.

Fixpoint max_loop_traced (rule : bound_rule)
    (rec : State E -> pynum -> pynum -> option traced)
    (children : list (State E)) (maxEval : pynum) (best_move : option (Move E))
    (alpha beta : pynum) (entered : list (State E)) : option traced :=
  match children with
  | [] => Some (maxEval, best_move, entered)
  | child :: rest =>
      match rec child alpha beta with
      | None => None
      | Some (eval_score, _, below) =>
          let '(maxEval, best_move) :=
            if py_gt eval_score maxEval
            then (eval_score, Some (peek E (board child)))
            else (maxEval, best_move) in
          let alpha := next_bound rule py_max alpha eval_score maxEval in
          let entered := (entered ++ below)%list in
          if py_ge alpha beta then Some (maxEval, best_move, entered)
          else max_loop_traced rule rec rest maxEval best_move alpha beta entered
      end
  end.

Fixpoint min_loop_traced (rule : bound_rule)
    (rec : State E -> pynum -> pynum -> option traced)
    (children : list (State E)) (minEval : pynum) (best_move : option (Move E))
    (alpha beta : pynum) (entered : list (State E)) : option traced :=
  match children with
  | [] => Some (minEval, best_move, entered)
  | child :: rest =>
      match rec child alpha beta with
      | None => None
      | Some (eval_score, _, below) =>
          let '(minEval, best_move) :=
            if py_lt eval_score minEval
            then (eval_score, Some (peek E (board child)))
            else (minEval, best_move) in
          let beta := next_bound rule py_min beta eval_score minEval in
          let entered := (entered ++ below)%list in
          if py_ge alpha beta then Some (minEval, best_move, entered)
          else min_loop_traced rule rec rest minEval best_move alpha beta entered
      end
  end.

Fixpoint minimax_traced (rule : bound_rule) (fuel : nat) (state : State E)
    (depth : Z) (alpha beta : pynum) (maximizingPlayer : bool) (maxDepth : Z)
    {struct fuel} : option traced :=
  match fuel with
  | O => None
  | S fuel' =>
      if isTerminal state || (depth =? maxDepth) then
        Some (evaluate state, None, [state])
      else if maximizingPlayer then
        max_loop_traced rule
          (fun child alpha beta =>
             minimax_traced rule fuel' child (depth + 1) alpha beta false maxDepth)
          (moveGen state) neg_inf None alpha beta [state]
      else
        min_loop_traced rule
          (fun child alpha beta =>
             minimax_traced rule fuel' child (depth + 1) alpha beta true maxDepth)
          (moveGen state) pos_inf None alpha beta [state]
  end.

End Variants.

(** ** Recorded answers of python-chess

    Two bare-king endgames in which the answers of python-chess are easy to
    read off the board:
    - [KvK]: [4k3/8/8/8/8/8/8/4K3], the two kings on e1 and e8;
    - [KRvK]: [4k3/8/8/8/8/8/8/R3K3], White has a rook on a1 in addition
      (no castling rights).
    A board is one of these placements with a side to move and the move
    counters it was reached with: [Fresh] is halfmove clock 0 at move 1,
    [Aged] is halfmove clock 10 at move 6, and [Stale] is halfmove clock 100
    at move 60 (the last hundred half-moves were neither captures nor pawn
    moves, and no position occurred five times), where the fifty-move draw
    can be claimed but the game is not over: python-chess ends it by itself
    only at clock 150.  Every move leads out of the table, to [Unlisted],
    which is given the answers of a dead position. *)

Module Table.

Inductive placement : Type := KvK | KRvK.
Inductive counters : Type := Fresh | Aged | Stale.

Inductive tboard : Type :=
| Listed (p : placement) (to_move : bool) (c : counters)
| Unlisted (last : string).

Local Open Scope string_scope.

Definition t_legal_moves (b : tboard) : list string :=
  match b with
  | Listed KvK true _ => ["e1f2"; "e1e2"; "e1d2"; "e1f1"; "e1d1"]
  | Listed KvK false _ => ["e8f8"; "e8d8"; "e8f7"; "e8e7"; "e8d7"]
  | Listed KRvK true _ =>
      ["e1f2"; "e1e2"; "e1d2"; "e1f1"; "e1d1";
       "a1a8"; "a1a7"; "a1a6"; "a1a5"; "a1a4"; "a1a3"; "a1a2";
       "a1d1"; "a1c1"; "a1b1"]
  | Listed KRvK false _ => ["e8f8"; "e8d8"; "e8f7"; "e8e7"; "e8d7"]
  | Unlisted _ => []
  end.

Definition t_is_game_over (b : tboard) : bool :=
  match b with
  | Listed KvK _ _ => true
  | Listed KRvK _ _ => false
  | Unlisted _ => true
  end.

Definition t_is_stalemate (b : tboard) : bool :=
  match b with
  | Listed _ _ _ => false
  | Unlisted _ => true
  end.

Definition t_is_insufficient_material (b : tboard) : bool :=
  match b with
  | Listed KvK _ _ => true
  | _ => false
  end.

Definition t_can_claim_draw (b : tboard) : bool :=
  match b with
  | Listed _ _ Stale => true
  | _ => false
  end.

Definition t_epd (b : tboard) : string :=
  match b with
  | Listed KvK true _ => "4k3/8/8/8/8/8/8/4K3 w - -"
  | Listed KvK false _ => "4k3/8/8/8/8/8/8/4K3 b - -"
  | Listed KRvK true _ => "4k3/8/8/8/8/8/8/R3K3 w - -"
  | Listed KRvK false _ => "4k3/8/8/8/8/8/8/R3K3 b - -"
  | Unlisted _ => ""
  end.

(** [fen()] is [epd()] followed by the halfmove clock and the move number. *)
Definition t_fen (b : tboard) : string :=
  match b with
  | Listed _ _ Fresh => t_epd b ++ " 0 1"
  | Listed _ _ Aged => t_epd b ++ " 10 6"
  | Listed _ _ Stale => t_epd b ++ " 100 60"
  | Unlisted _ => ""
  end.

Definition t_turn (b : tboard) : bool :=
  match b with
  | Listed _ t _ => t
  | Unlisted _ => WHITE
  end.

Definition t_set_turn (b : tboard) (t : bool) : tboard :=
  match b with
  | Listed p _ c => Listed p t c
  | Unlisted m => Unlisted m
  end.

Definition black_king : Piece := {| piece_type := KING; color := BLACK |}.
Definition white_king : Piece := {| piece_type := KING; color := WHITE |}.
Definition white_rook : Piece := {| piece_type := ROOK; color := WHITE |}.

Local Open Scope Z_scope.

(** The attributes [halfmove_clock] and [fullmove_number] of the board. *)
Definition t_halfmove_clock (b : tboard) : Z :=
  match b with
  | Listed _ _ Fresh => 0
  | Listed _ _ Aged => 10
  | Listed _ _ Stale => 100
  | Unlisted _ => 0
  end.

Definition t_fullmove_number (b : tboard) : Z :=
  match b with
  | Listed _ _ Fresh => 1
  | Listed _ _ Aged => 6
  | Listed _ _ Stale => 60
  | Unlisted _ => 1
  end.

(** [piece_map()] lists the occupied squares from h8 down to a1. *)
Definition t_piece_map (b : tboard) : list (Z * Piece) :=
  match b with
  | Listed KvK _ _ => [(60, black_king); (4, white_king)]
  | Listed KRvK _ _ => [(60, black_king); (4, white_king); (0, white_rook)]
  | Unlisted _ => []
  end.

Definition t_piece_at (b : tboard) (sq : Z) : option Piece :=
  match find (fun item => fst item =? sq) (t_piece_map b) with
  | Some item => Some (snd item)
  | None => None
  end.

Definition t_king (b : tboard) (c : bool) : option Z :=
  match b with
  | Listed _ _ _ => Some (if c then 4 else 60)
  | Unlisted _ => None
  end.

Definition engine : RulesEngine := {|
  Board := tboard;
  Move := string;
  is_game_over := t_is_game_over;
  legal_moves := t_legal_moves;
  push := fun _ m => Unlisted m;
  peek := fun b => match b with Unlisted m => m | Listed _ _ _ => EmptyString end;
  fen := t_fen;
  epd := t_epd;
  is_seventyfive_moves := fun _ => false;
  is_fivefold_repetition := fun _ => false;
  is_checkmate := fun _ => false;
  is_stalemate := t_is_stalemate;
  is_insufficient_material := t_is_insufficient_material;
  can_claim_draw := t_can_claim_draw;
  turn := t_turn;
  set_turn := t_set_turn;
  piece_map := t_piece_map;
  piece_at := t_piece_at;
  king := t_king;
  attackers := fun _ _ _ => []
|}.

Definition kings_only : State engine := @Build_State engine (Listed KvK WHITE Fresh).
Definition rook_fresh : State engine := @Build_State engine (Listed KRvK WHITE Fresh).
Definition rook_aged : State engine := @Build_State engine (Listed KRvK WHITE Aged).
Definition rook_stale : State engine := @Build_State engine (Listed KRvK WHITE Stale).

End Table.

(** ** A small game tree

    An engine made up for running the search: a root with three moves, two
    replies to each, and one further move from each of the six positions
    reached, after which the side to move has no move left and is mated.
    A board whose side to move was set to the side that has no move there is
    a stalemate.  The positions differ in the number of white pawns. *)

Module Toy.

Inductive node : Type :=
| Root | A | B | C | A1 | A2 | B1 | B2 | C1 | C2 | Limbo.

Definition tboard : Type := (node * bool)%type.

Definition side (n : node) : bool :=
  match n with
  | A | B | C | Limbo => BLACK
  | _ => WHITE
  end.

Definition moves (n : node) : list Z :=
  match n with
  | Root => [0; 1; 2]
  | A | B | C => [0; 1]
  | Limbo => []
  | _ => [0]
  end.

Definition t_legal_moves (b : tboard) : list Z :=
  if Bool.eqb (snd b) (side (fst b)) then moves (fst b) else [].

Definition child (n : node) (m : Z) : node :=
  match n with
  | Root => if m =? 0 then A else if m =? 1 then B else C
  | A => if m =? 0 then A1 else A2
  | B => if m =? 0 then B1 else B2
  | C => if m =? 0 then C1 else C2
  | _ => Limbo
  end.

Definition t_peek (b : tboard) : Z :=
  match fst b with
  | B | A2 | B2 | C2 => 1
  | C => 2
  | _ => 0
  end.

Definition no_moves (b : tboard) : bool :=
  match t_legal_moves b with
  | [] => true
  | _ => false
  end.

Definition is_limbo (n : node) : bool :=
  match n with
  | Limbo => true
  | _ => false
  end.

Definition pawns (n : node) : nat :=
  match n with
  | A => 1
  | B => 2
  | C => 2
  | A1 => 3
  | A2 => 5
  | B1 => 2
  | B2 => 9
  | C1 => 7
  | C2 => 8
  | _ => 0
  end.

Definition white_pawn : Piece := {| piece_type := PAWN; color := WHITE |}.

Definition t_piece_map (b : tboard) : list (Z * Piece) :=
  (60, Table.black_king) :: (4, Table.white_king)
    :: map (fun i => (8 + Z.of_nat i, white_pawn)) (seq 0 (pawns (fst b))).

Definition name (n : node) : string :=
  match n with
  | Root => "root"
  | A => "a"
  | B => "b"
  | C => "c"
  | A1 => "a1"
  | A2 => "a2"
  | B1 => "b1"
  | B2 => "b2"
  | C1 => "c1"
  | C2 => "c2"
  | Limbo => "limbo"
  end.

Definition t_fen (b : tboard) : string :=
  (name (fst b) ++ (if snd b then " w" else " b"))%string.

Definition engine : RulesEngine := {|
  Board := tboard;
  Move := Z;
  is_game_over := no_moves;
  legal_moves := t_legal_moves;
  push := fun b m => (child (fst b) m, negb (snd b));
  peek := t_peek;
  fen := t_fen;
  epd := t_fen;
  is_seventyfive_moves := fun _ => false;
  is_fivefold_repetition := fun _ => false;
  is_checkmate := fun b => no_moves b && is_limbo (fst b);
  is_stalemate := fun b => no_moves b && negb (is_limbo (fst b));
  is_insufficient_material := fun _ => false;
  can_claim_draw := fun _ => false;
  turn := fun b => snd b;
  set_turn := fun b t => (fst b, t);
  piece_map := t_piece_map;
  piece_at := fun _ _ => None;
  king := fun _ c => Some (if c then 4 else 60);
  attackers := fun _ _ _ => []
|}.

Definition root : State engine := @Build_State engine (Root, WHITE).
Definition white_mated : State engine := @Build_State engine (Limbo, WHITE).
Definition black_mated : State engine := @Build_State engine (Limbo, BLACK).
Definition blocked : State engine := @Build_State engine (Root, BLACK).

End Toy.

(** ** The order on scores *)

(** [x] is a number: not a NaN. *)
Definition is_number (x : pynum) : Prop := py_value x <> None.

(** [x < y] and [x <= y] on numbers. *)
Definition plt (x y : pynum) : Prop := py_compare x y = Some Lt.
Definition ple (x y : pynum) : Prop :=
  py_compare x y = Some Lt \/ py_compare x y = Some Eq.

(** A number strictly between the two infinities. *)
Definition is_finite (x : pynum) : Prop := plt neg_inf x /\ plt x pos_inf.

(** ** What is assumed of a rules engine *)

(** The board has 64 squares: at most 64 pieces stand on it, at most 64
    pieces attack a square, and a move is a pair of squares with at most five
    promotion choices, so a position has fewer than [2^16] moves. *)
Definition bounded_engine (E : RulesEngine) : Prop :=
  forall b : Board E,
    len (piece_map E b) <= 64 /\
    len (legal_moves E b) < 2 ^ 16 /\
    forall c sq, len (attackers E b c sq) <= 64.

(** A position in which the side to move has no legal move is checkmate or
    stalemate, and the game is over. *)
Definition no_moves_is_over (E : RulesEngine) : Prop :=
  forall b : Board E, legal_moves E b = [] -> is_game_over E b = true.

(** [is_game_over()], called without [claim_draw], is decided by the
    outcomes that end a game by themselves: checkmate, stalemate,
    insufficient material, the seventy-five-move rule and fivefold
    repetition. *)
Definition game_over_law (E : RulesEngine) : Prop :=
  forall b : Board E,
    is_game_over E b
    = is_checkmate E b || is_stalemate E b || is_insufficient_material E b
      || is_seventyfive_moves E b || is_fivefold_repetition E b.

(** [peek()] after [push(move)] is [move]. *)
Definition peek_after_push (E : RulesEngine) : Prop :=
  forall (b : Board E) (m : Move E),
    In m (legal_moves E b) -> peek E (push E b m) = m.

(** Everything the evaluation asks of a board, except whether a draw can be
    claimed, is determined by the board configuration. *)
Definition configuration_determined (E : RulesEngine) : Prop :=
  forall b1 b2 : Board E,
    epd E b1 = epd E b2 ->
    is_checkmate E b1 = is_checkmate E b2 /\
    turn E b1 = turn E b2 /\
    is_stalemate E b1 = is_stalemate E b2 /\
    is_insufficient_material E b1 = is_insufficient_material E b2 /\
    piece_map E b1 = piece_map E b2 /\
    (forall sq, piece_at E b1 sq = piece_at E b2 sq) /\
    (forall c, king E b1 c = king E b2 c) /\
    (forall c sq, attackers E b1 c sq = attackers E b2 c sq) /\
    legal_moves E (set_turn E b1 WHITE) = legal_moves E (set_turn E b2 WHITE) /\
    legal_moves E (set_turn E (set_turn E b1 WHITE) BLACK)
    = legal_moves E (set_turn E (set_turn E b2 WHITE) BLACK).

(** ** One loop for both sides

    [max_loop] and [min_loop] are the same loop up to the direction of the
    comparison: [better] is [>] at a MAX node and [<] at a MIN node, [bound]
    is the bound the node advances ([alpha], resp. [beta]), [other] the bound
    it is cut off at, and [cutoff bound other] the test [alpha >= beta]. *)

Section OneSide.

Context {E : RulesEngine}.

Variable better : pynum -> pynum -> bool.
Variable cutoff : pynum -> pynum -> bool.

Fixpoint side_loop (rec : State E -> pynum -> pynum -> option (result E))
    (children : list (State E)) (best : pynum) (best_move : option (Move E))
    (bound other : pynum) : option (result E) :=
  match children with
  | [] => Some (best, best_move)
  | child :: rest =>
      match rec child bound other with
      | None => None
      | Some (eval_score, _) =>
          let '(best, best_move) :=
            if better eval_score best
            then (eval_score, Some (peek E (board child)))
            else (best, best_move) in
          let bound := if better eval_score bound then eval_score else bound in
          if cutoff bound other then Some (best, best_move)
          else side_loop rec rest best best_move bound other
      end
  end.

Fixpoint side_loop_full (rec : State E -> option (result E))
    (children : list (State E)) (best : pynum) (best_move : option (Move E))
    : option (result E) :=
  match children with
  | [] => Some (best, best_move)
  | child :: rest =>
      match rec child with
      | None => None
      | Some (eval_score, _) =>
          let '(best, best_move) :=
            if better eval_score best
            then (eval_score, Some (peek E (board child)))
            else (best, best_move) in
          side_loop_full rec rest best best_move
      end
  end.

Variable lt : pynum -> pynum -> Prop.
Variable le : pynum -> pynum -> Prop.

(** What a search inside the window [(bound, other)] promises about the
    value [v] of the full search when it returns [v']. *)
Definition window_rel (bound other v' v : pynum) : Prop :=
  (lt v' other -> le v v') /\
  (lt bound v' -> le v' v) /\
  (lt bound v' -> lt v' other -> v' = v).

Definition child_ok (recf : State E -> option (result E))
    (rec : State E -> pynum -> pynum -> option (result E)) (c : State E) : Prop :=
  forall v m, recf c = Some (v, m) ->
    is_number v /\
    forall bound other, is_number bound -> is_number other -> lt bound other ->
      exists v' m', rec c bound other = Some (v', m') /\ is_number v' /\
        window_rel bound other v' v.

End OneSide.

(** ** Magnitudes of binary64 values *)

(** [x] is zero or finite, of absolute value below [2^K]. *)
Definition fmag (K : Z) (x : spec_float) : Prop :=
  match x with
  | S754_zero _ => True
  | S754_finite _ m e => Zpos (digits2_pos m) + e <= K
  | _ => False
  end.

(** After [k] shifts to the right a mantissa is still non-negative and has
    lost [k] of its [D] digits. *)
Definition shr_inv (D k : Z) (x : shr_record) : Prop :=
  0 <= shr_m x /\ (0 < shr_m x -> Zdigits2 (shr_m x) + k <= D).

(** ** The FEN string *)

(** [str] of a Python [int]. *)
Definition str_int (z : Z) : string :=
  DecimalString.NilZero.string_of_int (Z.to_int z).

Definition is_space (c : Ascii.ascii) : bool :=
  Ascii.eqb c (Ascii.ascii_of_nat 32).

Fixpoint has_space (s : string) : bool :=
  match s with
  | EmptyString => false
  | String c rest => is_space c || has_space rest
  end.

(** [fen()] of a board is [epd()], [str(halfmove_clock)] and
    [str(fullmove_number)] joined by single spaces. *)
Definition fen_joined (E : RulesEngine)
    (halfmove_clock fullmove_number : Board E -> Z) (b : Board E) : Prop :=
  fen E b
  = (epd E b ++ " " ++ str_int (halfmove_clock b) ++ " "
       ++ str_int (fullmove_number b))%string.

(** ** The game loop

    [play_game] talks to the player and to the display.  What it reads from
    the outside in one pass through the loop is a [tick]: whether the display
    reports a request to quit, the line [input] returns when it is called,
    and the elapsed time as it is formatted in the message of the AI.  What
    it does to the outside is a list of [output]s.  A string is the UTF-8
    text. *)

(** The calls the loop makes beyond those of the search. *)
Record Console (E : RulesEngine) : Type := {
  start_board : Board E;
  from_uci : string -> option (Move E);
  uci : Move E -> string;
  is_legal : Board E -> Move E -> bool;
  move_bool : Move E -> bool
}.

Arguments start_board {E} _.
Arguments from_uci {E} _ _.
Arguments uci {E} _ _.
Arguments is_legal {E} _ _ _.
Arguments move_bool {E} _ _.

Record tick : Type := {
  quit_clicked : bool;
  typed : string;
  elapsed : string
}.

Inductive output : Type :=
| Print (line : string)
| Prompt (text : string)
| DisplayStart
| DisplayUpdate (position : string)
| DisplayTerminate
| Sleep (seconds : Z).

(** How the body of the loop is left: by [break], or towards the next test
    of the loop condition ([continue], or the end of the body). *)
Inductive flow : Type :=
| Break
| Continue.

(** [str.lower()], on the letters a string can share with ['quit']. *)
Definition lower_ascii (c : Ascii.ascii) : Ascii.ascii :=
  let n := Ascii.nat_of_ascii c in
  if ((65 <=? n) && (n <=? 90))%nat then Ascii.ascii_of_nat (n + 32) else c.

Fixpoint lower (s : string) : string :=
  match s with
  | EmptyString => EmptyString
  | String c rest => String (lower_ascii c) (lower rest)
  end.

Definition newline : string := String (Ascii.ascii_of_nat 10) EmptyString.

Definition en_dash : string :=
  String (Ascii.ascii_of_nat 226)
    (String (Ascii.ascii_of_nat 128) (String (Ascii.ascii_of_nat 147) EmptyString)).

Section Game.

Context {E : RulesEngine}.

Variable C : Console E.

Local Open Scope string_scope.

Definition game_maxDepth : Z := 3.

(** The turn of the player: the [try] block, with [from_uci] raising
    [ValueError] on a malformed line. *)
Definition human_turn (current_state : State E) (move_uci : string)
    : flow * State E * list output :=
  let asked :=
    Prompt "Enter your move (e.g., e2e4, g1f3, a7a8q) or 'quit': " in
  if String.eqb (lower move_uci) "quit" then (Break, current_state, [asked])
  else
    match from_uci C move_uci with
    | Some move =>
        if is_legal C (board current_state) move then
          (Continue, @Build_State E (push E (board current_state) move),
           [asked])
        else
          (Continue, current_state, [asked; Print "Invalid move! Try again."])
    | None =>
        (Continue, current_state,
         [asked; Print "Invalid input format! Use UCI format like 'e2e4'."])
    end.

(** The turn of the AI; [None] when the search did not return within the
    nesting [maxDepth + 1]. *)
Definition ai_turn (current_state : State E) (seconds : string)
    : option (flow * State E * list output) :=
  match
    minimax (S (Z.to_nat game_maxDepth)) current_state 0 neg_inf pos_inf false
      game_maxDepth
  with
  | None => None
  | Some (eval_score, best_move) =>
      let said :=
        [Print "AI is thinking...";
         Print ("AI thought for " ++ seconds ++ " seconds")] in
      let fallback :=
        match legal_moves E (board current_state) with
        | move :: _ =>
            (Continue, @Build_State E (push E (board current_state) move),
             (said ++ [Print ("AI plays (fallback): " ++ uci C move)])%list)
        | [] => (Break, current_state, said)
        end in
      match best_move with
      | Some move =>
          if move_bool C move then
            Some (Continue, @Build_State E (push E (board current_state) move),
                  (said ++ [Print ("AI plays: " ++ uci C move)])%list)
          else Some fallback
      | None => Some fallback
      end
  end.

Definition loop_body (t : tick) (current_state : State E)
    : option (flow * State E * list output) :=
  let shown := DisplayUpdate (fen E (board current_state)) in
  if quit_clicked t then Some (Break, current_state, [shown])
  else if Bool.eqb (turn E (board current_state)) WHITE then
    let '(f, s, out) := human_turn current_state (typed t) in
    Some (f, s, shown :: out)
  else
    match ai_turn current_state (elapsed t) with
    | Some (f, s, out) => Some (f, s, shown :: out)
    | None => None
    end.

(** The [while] loop over the ticks it is given; [None] when the loop is
    still running after the last of them. *)
Fixpoint game_loop (ticks : list tick) (current_state : State E)
    : option (State E * list output) :=
  if isTerminal current_state then Some (current_state, [])
  else
    match ticks with
    | [] => None
    | t :: rest =>
        match loop_body t current_state with
        | None => None
        | Some (Break, s, out) => Some (s, out)
        | Some (Continue, s, out) =>
            match game_loop rest s with
            | Some (s', out') => Some (s', (out ++ out')%list)
            | None => None
            end
        end
    end.

(** The result printed after the loop. *)
Definition verdict (current_state : State E) : list output :=
  let b := board current_state in
  if is_checkmate E b then
    let winner := if Bool.eqb (turn E b) BLACK then "White" else "Black" in
    [Print ("Checkmate! " ++ winner ++ " wins!")]
  else if is_stalemate E b then [Print "Stalemate! It's a draw."]
  else if is_insufficient_material E b then
    [Print "Insufficient material! It's a draw."]
  else if can_claim_draw E b then [Print "Draw by repetition or 50-move rule!"]
  else [].

Definition play_game (ticks : list tick) : option (list output) :=
  let current_state := @Build_State E (start_board C) in
  let banner :=
    [DisplayStart;
     Print ("Artificial Intelligence " ++ en_dash ++ " Assignment 3");
     Print "Simple Chess AI";
     Print
       "You are playing as White (enter moves in UCI format, e.g., e2e4)"] in
  match game_loop ticks current_state with
  | None => None
  | Some (s, out) =>
      Some (banner ++ out
            ++ [Print (newline ++ "Game over!");
                DisplayUpdate (fen E (board s))]
            ++ verdict s ++ [Sleep 3; DisplayTerminate])%list
  end.

End Game.

(** States reached from a state by legal moves. *)
Inductive played {E : RulesEngine} : State E -> State E -> Prop :=
| played_here (s : State E) : played s s
| played_move (s s' : State E) (m : Move E) :
    In m (legal_moves E (board s)) ->
    played (@Build_State E (push E (board s) m)) s' ->
    played s s'.

(** One pass through the loop leaves the state alone or plays a legal
    move. *)
Definition at_most_one_move {E : RulesEngine} (s s' : State E) : Prop :=
  s' = s \/
  exists m, In m (legal_moves E (board s)) /\
            s' = @Build_State E (push E (board s) m).

(** [move in board.legal_moves] is membership in the list of legal moves. *)
Definition legal_membership {E : RulesEngine} (C : Console E) : Prop :=
  forall (b : Board E) (m : Move E),
    is_legal C b m = true <-> In m (legal_moves E b).

(** A legal move is not the null move, the only move that is false. *)
Definition legal_moves_true {E : RulesEngine} (C : Console E) : Prop :=
  forall (b : Board E) (m : Move E),
    In m (legal_moves E b) -> move_bool C m = true.

(** When the seventy-five-move rule or fivefold repetition applies, the
    fifty-move rule or threefold repetition can be claimed. *)
Definition automatic_draws_claimable (E : RulesEngine) : Prop :=
  forall b : Board E,
    is_seventyfive_moves E b = true \/ is_fivefold_repetition E b = true ->
    can_claim_draw E b = true.

(** A console for the small game tree: a move is typed as its number. *)
Module ToyConsole.

Local Open Scope string_scope.

Definition t_from_uci (s : string) : option Z :=
  if String.eqb s "0" then Some 0
  else if String.eqb s "1" then Some 1
  else if String.eqb s "2" then Some 2
  else None.

Definition t_uci (m : Z) : string :=
  if (m =? 0)%Z then "0" else if (m =? 1)%Z then "1" else "2".

Definition console : Console Toy.engine := {|
  start_board := (Toy.Root, WHITE) : Board Toy.engine;
  from_uci := t_from_uci : string -> option (Move Toy.engine);
  uci := t_uci : Move Toy.engine -> string;
  is_legal := fun (b : Board Toy.engine) (m : Move Toy.engine) =>
                existsb (Z.eqb m) (Toy.t_legal_moves b);
  move_bool := fun _ : Move Toy.engine => true
|}.

End ToyConsole.

(** * Properties *)

(** ** Order lemmas *)

Ltac ext_cases :=
  repeat match goal with
  | x : ext |- _ => destruct x
  end;
  simpl in *;
  repeat match goal with
  | H : context [Qcompare ?p ?q] |- _ => destruct (Qcompare_spec p q)
  | |- context [Qcompare ?p ?q] => destruct (Qcompare_spec p q)
  end;
  try discriminate; try tauto; try (exfalso; lra); try lra.

Ltac num_cases :=
  unfold plt, ple, is_number, py_compare in *;
  repeat match goal with
  | H : context [py_value ?x] |- _ => destruct (py_value x) as [?|]
  | |- context [py_value ?x] => destruct (py_value x) as [?|]
  end;
  try solve [intuition (try discriminate; try congruence)].

Lemma plt_number_l (x y : pynum) : plt x y -> is_number x.
Proof. num_cases. Qed.

Lemma plt_number_r (x y : pynum) : plt x y -> is_number y.
Proof. num_cases. Qed.

Lemma ple_refl (x : pynum) : is_number x -> ple x x.
Proof.
  num_cases. intros _. right. f_equal. ext_cases.
Qed.

Lemma plt_ple (x y : pynum) : plt x y -> ple x y.
Proof. unfold plt, ple; auto. Qed.


Lemma ple_trans (x y z : pynum) : ple x y -> ple y z -> ple x z.
Proof.
  num_cases.
  intros [H1|H1] [H2|H2]; injection H1 as H1; injection H2 as H2;
    ext_cases; try (left; reflexivity); try (right; reflexivity).
Qed.

Lemma plt_ple_trans (x y z : pynum) : plt x y -> ple y z -> plt x z.
Proof.
  num_cases.
  intros H1 [H2|H2]; injection H1 as H1; injection H2 as H2;
    f_equal; ext_cases.
Qed.

Lemma ple_plt_trans (x y z : pynum) : ple x y -> plt y z -> plt x z.
Proof.
  num_cases.
  intros [H1|H1] H2; injection H1 as H1; injection H2 as H2;
    f_equal; ext_cases.
Qed.

Lemma plt_not_ple (x y : pynum) : plt x y -> ple y x -> False.
Proof.
  num_cases.
  intros H1 [H2|H2]; injection H1 as H1; injection H2 as H2; ext_cases.
Qed.

Lemma plt_or_ple (x y : pynum) : is_number x -> is_number y -> plt x y \/ ple y x.
Proof.
  num_cases. intros _ _.
  ext_cases; try (left; reflexivity); try (right; left; reflexivity);
    try (right; right; reflexivity).
Qed.

Lemma py_compare_antisym (x y : pynum) :
  py_compare y x = option_map CompOpp (py_compare x y).
Proof.
  unfold py_compare.
  destruct (py_value x) as [a|], (py_value y) as [b|]; simpl; trivial.
  f_equal. destruct a, b; simpl; trivial. symmetry. apply Qcompare_antisym.
Qed.

Lemma py_compare_numbers (x y : pynum) :
  is_number x -> is_number y -> exists c, py_compare x y = Some c.
Proof.
  unfold is_number, py_compare.
  destruct (py_value x), (py_value y); intros; try congruence; eauto.
Qed.

Lemma py_gt_true (e m : pynum) : py_gt e m = true -> plt m e.
Proof.
  unfold py_gt, plt. rewrite (py_compare_antisym e m).
  destruct (py_compare e m) as [[]|]; simpl; congruence.
Qed.

Lemma py_gt_false (e m : pynum) :
  is_number e -> is_number m -> py_gt e m = false -> ple e m.
Proof.
  intros He Hm. destruct (py_compare_numbers e m He Hm) as [c Hc].
  unfold py_gt, ple. rewrite Hc. destruct c; auto; discriminate.
Qed.

Lemma py_lt_true (e m : pynum) : py_lt e m = true -> plt e m.
Proof.
  unfold py_lt, plt. destruct (py_compare e m) as [[]|]; congruence.
Qed.

Lemma py_lt_false (e m : pynum) :
  is_number e -> is_number m -> py_lt e m = false -> ple m e.
Proof.
  intros He Hm. destruct (py_compare_numbers e m He Hm) as [c Hc].
  unfold py_lt, ple. rewrite (py_compare_antisym e m), Hc.
  destruct c; simpl; auto; discriminate.
Qed.

Lemma py_ge_true (a b : pynum) : py_ge a b = true -> ple b a.
Proof.
  unfold py_ge, ple. rewrite (py_compare_antisym a b).
  destruct (py_compare a b) as [[]|]; simpl; auto; discriminate.
Qed.

Lemma py_ge_false (a b : pynum) :
  is_number a -> is_number b -> py_ge a b = false -> plt a b.
Proof.
  intros Ha Hb. destruct (py_compare_numbers a b Ha Hb) as [c Hc].
  unfold py_ge, plt. rewrite Hc. destruct c; auto; discriminate.
Qed.

Lemma neg_inf_number : is_number neg_inf.
Proof. discriminate. Qed.

Lemma pos_inf_number : is_number pos_inf.
Proof. discriminate. Qed.

Lemma neg_inf_least (x : pynum) : is_number x -> ple neg_inf x.
Proof.
  unfold ple, py_compare, is_number. simpl.
  destruct (py_value x) as [[]|]; simpl; intuition congruence.
Qed.

Lemma pos_inf_greatest (x : pynum) : is_number x -> ple x pos_inf.
Proof.
  unfold ple, py_compare, is_number. simpl.
  destruct (py_value x) as [[]|]; simpl; intuition congruence.
Qed.

Lemma neg_inf_lt_pos_inf : plt neg_inf pos_inf.
Proof. reflexivity. Qed.

Lemma py_value_neg_inf (x : pynum) : py_value x = Some NegInf -> x = neg_inf.
Proof.
  destruct x as [z|[s|[]|  |s m e]]; simpl; try discriminate; reflexivity.
Qed.

Lemma py_value_pos_inf (x : pynum) : py_value x = Some PosInf -> x = pos_inf.
Proof.
  destruct x as [z|[s|[]|  |s m e]]; simpl; try discriminate; reflexivity.
Qed.

Lemma ple_neg_inf (x : pynum) : ple x neg_inf -> x = neg_inf.
Proof.
  intros H. apply py_value_neg_inf. revert H.
  unfold ple, py_compare. simpl.
  destruct (py_value x) as [[]|]; simpl; intuition congruence.
Qed.

Lemma pos_inf_ple (x : pynum) : ple pos_inf x -> x = pos_inf.
Proof.
  intros H. apply py_value_pos_inf. revert H.
  unfold ple, py_compare. simpl.
  destruct (py_value x) as [[]|]; simpl; intuition congruence.
Qed.

Lemma py_gt_of_plt (e m : pynum) : plt m e -> py_gt e m = true.
Proof.
  unfold plt, py_gt. rewrite (py_compare_antisym m e). intros ->. reflexivity.
Qed.

Lemma py_lt_of_plt (e m : pynum) : plt e m -> py_lt e m = true.
Proof. unfold plt, py_lt. intros ->. reflexivity. Qed.

Lemma py_gt_irrefl (x : pynum) : py_gt x x = false.
Proof.
  destruct (py_gt x x) eqn:H; trivial.
  apply py_gt_true in H. exfalso.
  exact (plt_not_ple _ _ H (plt_ple _ _ H)).
Qed.

Lemma py_lt_irrefl (x : pynum) : py_lt x x = false.
Proof.
  destruct (py_lt x x) eqn:H; trivial.
  apply py_lt_true in H. exfalso.
  exact (plt_not_ple _ _ H (plt_ple _ _ H)).
Qed.

Lemma py_gt_neg_inf (x : pynum) : py_gt neg_inf x = false.
Proof.
  destruct (py_gt neg_inf x) eqn:H; trivial.
  apply py_gt_true in H. exfalso.
  exact (plt_not_ple _ _ H (neg_inf_least _ (plt_number_l _ _ H))).
Qed.

Lemma py_lt_pos_inf (x : pynum) : py_lt pos_inf x = false.
Proof.
  destruct (py_lt pos_inf x) eqn:H; trivial.
  apply py_lt_true in H. exfalso.
  exact (plt_not_ple _ _ H (pos_inf_greatest _ (plt_number_r _ _ H))).
Qed.

(** A number that is not infinite is finite. *)
Lemma number_cases (x : pynum) :
  is_number x -> x = neg_inf \/ is_finite x \/ x = pos_inf.
Proof.
  intros Hx.
  destruct (plt_or_ple neg_inf x neg_inf_number Hx) as [Hlo|Hlo].
  - destruct (plt_or_ple x pos_inf Hx pos_inf_number) as [Hhi|Hhi].
    + right; left; split; assumption.
    + right; right. apply pos_inf_ple, Hhi.
  - left. apply ple_neg_inf, Hlo.
Qed.

(** ** Rounding keeps magnitudes *)

Lemma digits2_size (p : positive) : digits2_pos p = Pos.size p.
Proof. induction p; simpl; congruence. Qed.

Lemma digits2_upper (p : positive) : Zpos p < 2 ^ Zpos (digits2_pos p).
Proof.
  rewrite digits2_size. pose proof (Pos.size_gt p) as H.
  change 2 with (Zpos 2). rewrite <- Pos2Z.inj_pow. apply Pos2Z.pos_lt_pos. exact H.
Qed.

Lemma digits2_lower (p : positive) : 2 ^ Zpos (digits2_pos p) <= 2 * Zpos p.
Proof.
  rewrite digits2_size. pose proof (Pos.size_le p) as H.
  change (2 * Zpos p) with (Zpos p~0). change 2 with (Zpos 2). rewrite <- Pos2Z.inj_pow.
  apply Pos2Z.pos_le_pos. exact H.
Qed.

Lemma digits2_le_of_lt (p : positive) (j : Z) :
  0 <= j -> Zpos p < 2 ^ j -> Zpos (digits2_pos p) <= j.
Proof.
  intros Hj H. pose proof (digits2_lower p) as Hl.
  assert (2 ^ Zpos (digits2_pos p) < 2 ^ (j + 1)).
  { replace (j + 1) with (Z.succ j) by lia. rewrite Z.pow_succ_r by lia. lia. }
  apply Z.pow_lt_mono_r_iff in H0; lia.
Qed.

Lemma Zdigits2_succ (m : Z) : 0 <= m -> Zdigits2 (m + 1) <= Zdigits2 m + 1.
Proof.
  intros Hm. destruct m as [|p|p]; [simpl; lia| |lia].
  change (Zpos p + 1) with (Zpos (p + 1)). cbn [Zdigits2].
  apply digits2_le_of_lt; [lia|].
  pose proof (digits2_upper p).
  replace (Zpos (digits2_pos p) + 1) with (Z.succ (Zpos (digits2_pos p))) by lia.
  rewrite Z.pow_succ_r by lia. lia.
Qed.

Lemma shr_1_inv (D k : Z) (x : shr_record) :
  shr_inv D k x -> shr_inv D (k + 1) (shr_1 x).
Proof.
  destruct x as [m r s]. unfold shr_inv.
  destruct m as [|[p|p|]|[p|p|]];
    cbn [shr_m shr_1 Zdigits2 digits2_pos]; intros [H0 H1]; split; try lia;
    intros Hp; try lia; specialize (H1 ltac:(lia)); lia.
Qed.

Lemma iter_shr_1_inv (D : Z) :
  forall p k x, shr_inv D k x -> shr_inv D (k + Zpos p) (iter_pos shr_1 p x).
Proof.
  induction p as [p IH|p IH|]; intros k x H; simpl.
  - replace (k + Zpos p~1) with (k + 1 + Zpos p + Zpos p) by lia.
    apply IH, IH, shr_1_inv, H.
  - replace (k + Zpos p~0) with (k + Zpos p + Zpos p) by lia.
    apply IH, IH, H.
  - apply shr_1_inv, H.
Qed.

Lemma shr_record_of_loc_m (m : Z) (l : location) :
  shr_m (shr_record_of_loc m l) = m.
Proof. destruct l as [|[]]; reflexivity. Qed.

Lemma shr_fexp_spec (m e : Z) (l : location) :
  0 <= m ->
  let '(mrs, e') := shr_fexp prec emax m e l in
  0 <= shr_m mrs /\
  e' = Z.max e (fexp prec emax (Zdigits2 m + e)) /\
  (0 < shr_m mrs -> Zdigits2 (shr_m mrs) + e' <= Zdigits2 m + e).
Proof.
  intros Hm. unfold shr_fexp, shr.
  destruct (fexp prec emax (Zdigits2 m + e) - e) as [|p|p] eqn:Hn.
  - rewrite shr_record_of_loc_m. repeat split; lia.
  - assert (Hinv : shr_inv (Zdigits2 m) 0 (shr_record_of_loc m l))
      by (unfold shr_inv; rewrite shr_record_of_loc_m; split; lia).
    destruct (iter_shr_1_inv (Zdigits2 m) p 0 _ Hinv) as [H0 H1].
    split; [exact H0|]. split; [lia|].
    intros Hpos. specialize (H1 Hpos). lia.
  - rewrite shr_record_of_loc_m. repeat split; lia.
Qed.

Lemma round_nearest_even_cases (m : Z) (l : location) :
  round_nearest_even m l = m \/ round_nearest_even m l = m + 1.
Proof.
  destruct l as [|[]]; simpl; auto. destruct (Z.even m); auto.
Qed.

Lemma fexp_mono (a b : Z) : a <= b -> fexp prec emax a <= fexp prec emax b.
Proof. unfold fexp, emin, prec, emax. lia. Qed.

Lemma binary_round_aux_mag (K : Z) (sx : bool) (mx ex : Z) (lx : location) :
  0 <= mx ->
  ex <= fexp prec emax (Zdigits2 mx + ex) ->
  Zdigits2 mx + ex <= K ->
  -1074 <= K -> K + 1 <= 1024 ->
  fmag (K + 1) (binary_round_aux prec emax sx mx ex lx).
Proof.
  intros Hm Hex HK Hlo Hhi. unfold binary_round_aux.
  pose proof (shr_fexp_spec mx ex lx Hm) as H1.
  destruct (shr_fexp prec emax mx ex lx) as [mrs1 e1].
  destruct H1 as (Hm1 & He1 & Hd1).
  set (m2 := round_nearest_even (shr_m mrs1) (loc_of_shr_record mrs1)).
  assert (Hm2 : 0 <= m2)
    by (unfold m2;
        destruct (round_nearest_even_cases (shr_m mrs1) (loc_of_shr_record mrs1))
          as [->| ->]; lia).
  assert (Hd2 : Zdigits2 m2 + e1 <= K + 1).
  { assert (He1' : e1 <= fexp prec emax K).
    { rewrite He1. apply Z.max_lub; [|apply fexp_mono; exact HK].
      eapply Z.le_trans; [exact Hex | apply fexp_mono; exact HK]. }
    assert (Hf : fexp prec emax K <= K)
      by (unfold fexp, emin, prec, emax; lia).
    unfold m2.
    destruct (round_nearest_even_cases (shr_m mrs1) (loc_of_shr_record mrs1))
      as [->| ->].
    - destruct (Z.eq_dec (shr_m mrs1) 0) as [Hz|Hne].
      + rewrite Hz. change (Zdigits2 0) with 0. lia.
      + specialize (Hd1 ltac:(lia)). lia.
    - pose proof (Zdigits2_succ (shr_m mrs1) Hm1) as Hs.
      destruct (Z.eq_dec (shr_m mrs1) 0) as [Hz|Hne].
      + rewrite Hz in Hs |- *. change (Zdigits2 0) with 0 in Hs. lia.
      + specialize (Hd1 ltac:(lia)). lia. }
  pose proof (shr_fexp_spec m2 e1 loc_Exact Hm2) as H2.
  destruct (shr_fexp prec emax m2 e1 loc_Exact) as [mrs3 e3].
  destruct H2 as (Hm3 & He3 & Hd3).
  destruct (shr_m mrs3) as [|m3|m3] eqn:Hm3'; [exact I| |lia].
  specialize (Hd3 ltac:(lia)). cbn [Zdigits2] in Hd3.
  assert (He3' : e3 <= emax - prec).
  { rewrite He3. apply Z.max_lub.
    - rewrite He1. apply Z.max_lub.
      + eapply Z.le_trans; [exact Hex|].
        eapply Z.le_trans; [apply fexp_mono; exact HK|].
        unfold fexp, emin, prec, emax; lia.
      + eapply Z.le_trans; [apply fexp_mono; exact HK|].
        unfold fexp, emin, prec, emax; lia.
    - eapply Z.le_trans; [apply fexp_mono; exact Hd2|].
      unfold fexp, emin, prec, emax; lia. }
  apply Z.leb_le in He3'. rewrite He3'. cbn [fmag]. lia.
Qed.

Lemma digits2_iter_xO (m d : positive) :
  Zpos (digits2_pos (Pos.iter xO m d)) = Zpos (digits2_pos m) + Zpos d.
Proof.
  induction d as [|d IH] using Pos.peano_ind.
  - simpl. lia.
  - rewrite Pos.iter_succ. cbn [digits2_pos]. lia.
Qed.

Lemma shl_align_digits (mx : positive) (ex ex' : Z) :
  Zpos (digits2_pos (fst (shl_align mx ex ex'))) + snd (shl_align mx ex ex')
  = Zpos (digits2_pos mx) + ex
  /\ snd (shl_align mx ex ex') = Z.min ex ex'.
Proof.
  unfold shl_align. destruct (ex' - ex) as [|d|d] eqn:Hd; cbn [fst snd].
  - lia.
  - lia.
  - rewrite digits2_iter_xO. lia.
Qed.

Lemma binary_round_mag (K : Z) (sx : bool) (mx : positive) (ex : Z) :
  Zpos (digits2_pos mx) + ex <= K ->
  -1074 <= K -> K + 1 <= 1024 ->
  fmag (K + 1) (binary_round prec emax sx mx ex).
Proof.
  intros HK Hlo Hhi. unfold binary_round.
  pose proof (shl_align_digits mx ex
                (fexp prec emax (Zpos (digits2_pos mx) + ex))) as [Hd He].
  destruct (shl_align mx ex (fexp prec emax (Zpos (digits2_pos mx) + ex)))
    as [mz ez].
  cbn [fst snd] in Hd, He.
  apply binary_round_aux_mag; cbn [Zdigits2]; try lia.
  rewrite Hd. lia.
Qed.

Lemma binary_normalize_mag (K : Z) (m e : Z) (sz : bool) :
  Zdigits2 m + e <= K ->
  -1074 <= K -> K + 1 <= 1024 ->
  fmag (K + 1) (binary_normalize prec emax m e sz).
Proof.
  intros HK Hlo Hhi. destruct m as [|p|p]; cbn [binary_normalize].
  - exact I.
  - apply binary_round_mag; assumption.
  - apply binary_round_mag; assumption.
Qed.

Lemma Zdigits2_le_of_abs_lt (m j : Z) :
  0 <= j -> Z.abs m < 2 ^ j -> Zdigits2 m <= j.
Proof.
  intros Hj H. destruct m as [|p|p]; cbn [Zdigits2]; [lia| |];
    apply digits2_le_of_lt; trivial.
Qed.

Lemma fmag_weaken (K K' : Z) (x : spec_float) : K <= K' -> fmag K x -> fmag K' x.
Proof. destruct x; simpl; trivial. lia. Qed.

Lemma shl_align_value (mx : positive) (ex ex' : Z) :
  Zpos (fst (shl_align mx ex ex'))
  < 2 ^ (Zpos (digits2_pos mx) + ex - Z.min ex ex').
Proof.
  destruct (shl_align_digits mx ex ex') as [Hd He].
  pose proof (digits2_upper (fst (shl_align mx ex ex'))) as Hu.
  replace (Zpos (digits2_pos mx) + ex - Z.min ex ex')
    with (Zpos (digits2_pos (fst (shl_align mx ex ex')))) by lia.
  exact Hu.
Qed.

Lemma aligned_sum_mag (K : Z) (sx sy : bool) (mx my : positive) (ex ey : Z)
    (op : Z -> Z -> Z) :
  (forall a b, Z.abs (op a b) <= Z.abs a + Z.abs b) ->
  Zpos (digits2_pos mx) + ex <= K ->
  Zpos (digits2_pos my) + ey <= K ->
  Zdigits2
    (op (cond_Zopp sx (Zpos (fst (shl_align mx ex (Z.min ex ey)))))
        (cond_Zopp sy (Zpos (fst (shl_align my ey (Z.min ex ey))))))
  + Z.min ex ey <= K + 1.
Proof.
  intros Hop Hx Hy.
  set (ez := Z.min ex ey).
  pose proof (shl_align_value mx ex ez) as Hvx.
  pose proof (shl_align_value my ey ez) as Hvy.
  assert (Hj : 0 <= K - ez) by (unfold ez; lia).
  assert (Hpx : 2 ^ (Zpos (digits2_pos mx) + ex - Z.min ex ez) <= 2 ^ (K - ez))
    by (apply Z.pow_le_mono_r; unfold ez; lia).
  assert (Hpy : 2 ^ (Zpos (digits2_pos my) + ey - Z.min ey ez) <= 2 ^ (K - ez))
    by (apply Z.pow_le_mono_r; unfold ez; lia).
  match goal with |- Zdigits2 ?m + _ <= _ =>
    assert (Habs : Z.abs m < 2 ^ (K - ez + 1)) end.
  { replace (K - ez + 1) with (Z.succ (K - ez)) by lia.
    rewrite Z.pow_succ_r by lia.
    eapply Z.le_lt_trans; [apply Hop|].
    destruct sx, sy; cbn [cond_Zopp]; lia. }
  apply Zdigits2_le_of_abs_lt in Habs; lia.
Qed.

Lemma SFadd_mag (K : Z) (x y : spec_float) :
  fmag K x -> fmag K y -> -1074 <= K -> K + 2 <= 1024 ->
  fmag (K + 2) (SFadd prec emax x y).
Proof.
  intros Hx Hy Hlo Hhi.
  destruct x as [sx|sx| |sx mx ex], y as [sy|sy| |sy my ey];
    try contradiction; cbn [SFadd].
  - destruct sx, sy; exact I.
  - eapply fmag_weaken; [|exact Hy]; lia.
  - eapply fmag_weaken; [|exact Hx]; lia.
  - cbn [fmag] in Hx, Hy.
    replace (K + 2) with (K + 1 + 1) by lia.
    apply binary_normalize_mag; try lia.
    apply (aligned_sum_mag K sx sy mx my ex ey Z.add); trivial.
    intros; lia.
Qed.

Lemma SFsub_mag (K : Z) (x y : spec_float) :
  fmag K x -> fmag K y -> -1074 <= K -> K + 2 <= 1024 ->
  fmag (K + 2) (SFsub prec emax x y).
Proof.
  intros Hx Hy Hlo Hhi.
  destruct x as [sx|sx| |sx mx ex], y as [sy|sy| |sy my ey];
    try contradiction; cbn [SFsub].
  - destruct sx, sy; exact I.
  - cbn [fmag] in *. lia.
  - eapply fmag_weaken; [|exact Hx]; lia.
  - cbn [fmag] in Hx, Hy.
    replace (K + 2) with (K + 1 + 1) by lia.
    apply binary_normalize_mag; try lia.
    apply (aligned_sum_mag K sx sy mx my ex ey Z.sub); trivial.
    intros; lia.
Qed.

Lemma digits2_ge_of_le (p : positive) (j : Z) :
  2 ^ (j - 1) <= Zpos p -> j <= Zpos (digits2_pos p).
Proof.
  intros H. pose proof (digits2_upper p) as Hu.
  destruct (Z.le_gt_cases j (Zpos (digits2_pos p))) as [|Hgt]; trivial.
  exfalso.
  assert (2 ^ Zpos (digits2_pos p) <= 2 ^ (j - 1))
    by (apply Z.pow_le_mono_r; lia).
  lia.
Qed.

Lemma digits2_mul (p q : positive) :
  Zpos (digits2_pos p) <= Zpos (digits2_pos (p * q))
  /\ Zpos (digits2_pos (p * q)) <= Zpos (digits2_pos p) + Zpos (digits2_pos q).
Proof.
  pose proof (digits2_upper p) as Hp. pose proof (digits2_upper q) as Hq.
  pose proof (digits2_lower p) as Lp.
  split.
  - apply digits2_ge_of_le.
    replace (Zpos (digits2_pos p)) with (Z.succ (Zpos (digits2_pos p) - 1)) in Lp
      by lia.
    rewrite Z.pow_succ_r in Lp by lia.
    rewrite Pos2Z.inj_mul. nia.
  - apply digits2_le_of_lt; [lia|].
    rewrite Z.pow_add_r by lia. rewrite Pos2Z.inj_mul.
    apply Z.mul_lt_mono_nonneg; lia.
Qed.

(** The product with a literal of full precision. *)
Lemma SFmul_mag (Kx Ky : Z) (sx : bool) (mx : positive) (ex : Z)
    (y : spec_float) :
  Zpos (digits2_pos mx) = prec ->
  prec + ex <= Kx -> fmag Ky y ->
  -1074 <= Kx + Ky -> Kx + Ky + 1 <= 1024 ->
  fmag (Kx + Ky + 1) (SFmul prec emax (S754_finite sx mx ex) y).
Proof.
  intros Hd Hx Hy Hlo Hhi.
  destruct y as [sy|sy| |sy my ey]; try contradiction; cbn [SFmul].
  - exact I.
  - cbn [fmag] in Hy.
    destruct (digits2_mul mx my) as [Hl Hu].
    apply binary_round_aux_mag; cbn [Zdigits2]; try lia.
    unfold fexp, emin, prec, emax in *. lia.
Qed.

Lemma float_of_int_mag (L z : Z) :
  0 <= L -> Z.abs z < 2 ^ L -> L + 1 <= 1024 ->
  fmag (L + 1) (binary_normalize prec emax z 0 false).
Proof.
  intros HL Hz Hhi. apply binary_normalize_mag; try lia.
  pose proof (Zdigits2_le_of_abs_lt z L HL Hz). lia.
Qed.

(** ** The evaluation returns a finite number *)

Section Evaluate.

Context {E : RulesEngine}.

Hypothesis bounded : bounded_engine E.

Lemma len_cons {A : Type} (a : A) (l : list A) : len (a :: l) = len l + 1.
Proof. unfold len. cbn [List.length]. lia. Qed.

Lemma len_nonneg {A : Type} (l : list A) : 0 <= len l.
Proof. unfold len. lia. Qed.

Lemma piece_values_mag (pt : Z) : fmag 8 (piece_values pt).
Proof.
  unfold piece_values.
  repeat match goal with
  | |- context [if ?c then _ else _] => destruct c
  end; vm_compute; try exact I; intro Hc; discriminate Hc.
Qed.

Lemma material_step_mag (K : Z) (score : spec_float) (item : Z * Piece) :
  fmag K score -> 8 <= K -> K + 2 <= 1024 ->
  fmag (K + 2) (material_step score item).
Proof.
  intros Hs Hlo Hhi. unfold material_step.
  assert (Hv : fmag K (piece_values (piece_type (snd item))))
    by (eapply fmag_weaken; [|apply piece_values_mag]; lia).
  destruct (color (snd item)).
  - apply SFadd_mag; trivial; lia.
  - apply SFsub_mag; trivial; lia.
Qed.

Lemma fold_material_mag :
  forall (pm : list (Z * Piece)) (K : Z) (score : spec_float),
    fmag K score -> 8 <= K -> K + 2 * len pm <= 1024 ->
    fmag (K + 2 * len pm) (fold_left material_step pm score).
Proof.
  induction pm as [|item pm IH]; intros K score Hs Hlo Hhi.
  - simpl. eapply fmag_weaken; [|exact Hs]. unfold len. simpl. lia.
  - rewrite len_cons in *. pose proof (len_nonneg pm).
    cbn [fold_left].
    replace (K + 2 * (len pm + 1)) with (K + 2 + 2 * len pm) by lia.
    apply IH; try lia. apply material_step_mag; trivial; lia.
Qed.

Lemma center_step_mag (K : Z) (b : Board E) (score : spec_float) (sq : Z) :
  fmag K score -> 8 <= K -> K + 2 <= 1024 ->
  fmag (K + 2) (center_step b score sq).
Proof.
  intros Hs Hlo Hhi. unfold center_step.
  assert (Hv : fmag K f0_2)
    by (apply (fmag_weaken (-2));
        [lia | vm_compute; intro Hc; discriminate Hc]).
  destruct (piece_at E b sq) as [piece|].
  - destruct (color piece).
    + apply SFadd_mag; trivial; lia.
    + apply SFsub_mag; trivial; lia.
  - eapply fmag_weaken; [|exact Hs]. lia.
Qed.

Lemma mobility_mag (w b : Z) :
  0 <= w < 2 ^ 16 -> 0 <= b < 2 ^ 16 ->
  fmag 14 (b64_mul f0_05 (float_of_int (w - b))).
Proof.
  intros Hw Hb.
  change 14 with (-4 + 17 + 1). unfold b64_mul, f0_05.
  change (2 ^ 16) with 65536 in *.
  apply SFmul_mag; try reflexivity; try lia.
  change 17 with (16 + 1). apply float_of_int_mag; lia.
Qed.

Lemma attack_mag (n : Z) :
  0 <= n <= 64 -> fmag 9 (b64_mul f0_5 (float_of_int n)).
Proof.
  intros Hn.
  change 9 with (0 + 8 + 1). unfold b64_mul, f0_5.
  apply SFmul_mag; try reflexivity; try lia.
  change 8 with (7 + 1). apply float_of_int_mag; lia.
Qed.

Lemma heuristic_mag (b : Board E) : fmag 150 (heuristic b).
Proof.
  unfold heuristic.
  destruct (bounded b) as (Hpm & _ & Hatt).
  destruct (bounded (set_turn E b WHITE)) as (_ & Hw & _).
  destruct (bounded (set_turn E (set_turn E b WHITE) BLACK)) as (_ & Hbl & _).
  assert (H1 : fmag 136 (fold_left material_step (piece_map E b) f0_0)).
  { pose proof (len_nonneg (piece_map E b)).
    eapply fmag_weaken;
      [|apply (fold_material_mag (piece_map E b) 8 f0_0); try exact I; lia].
    lia. }
  set (s1 := fold_left material_step (piece_map E b) f0_0) in *.
  assert (H2 : fmag 144 (fold_left (center_step b) center_squares s1)).
  { unfold center_squares. cbn [fold_left].
    change 144 with (136 + 2 + 2 + 2 + 2).
    repeat (apply center_step_mag; try lia). exact H1. }
  set (s2 := fold_left (center_step b) center_squares s1) in *.
  set (t := b64_mul f0_05 _).
  assert (Ht : fmag 144 t).
  { eapply fmag_weaken; [|apply mobility_mag]; [lia| |];
      split; try apply len_nonneg; assumption. }
  assert (H3 : fmag 146 (b64_add s2 t))
    by (change 146 with (144 + 2); apply SFadd_mag; trivial; lia).
  set (s3 := b64_add s2 t) in *.
  assert (Hk : forall c sq,
             fmag 146
               (b64_mul f0_5 (float_of_int (len (attackers E b c sq))))).
  { intros c sq. eapply fmag_weaken; [|apply attack_mag]; [lia|].
    split; [apply len_nonneg | apply Hatt]. }
  assert (H4 : fmag 148
                 match king E b WHITE with
                 | Some white_king_sq =>
                     b64_sub s3 (b64_mul f0_5
                       (float_of_int (len (attackers E b BLACK white_king_sq))))
                 | None => s3
                 end).
  { destruct (king E b WHITE) as [sq|].
    - change 148 with (146 + 2). apply SFsub_mag; trivial; lia.
    - eapply fmag_weaken; [|exact H3]. lia. }
  destruct (king E b BLACK) as [sq|].
  - change 150 with (148 + 2). apply SFadd_mag; trivial; try lia.
    eapply fmag_weaken; [|apply Hk]. lia.
  - eapply fmag_weaken; [|exact H4]. lia.
Qed.

Lemma fmag_finite (K : Z) (x : spec_float) : fmag K x -> is_finite (PyFloat x).
Proof.
  destruct x; simpl; try contradiction; intros _; split; reflexivity.
Qed.

Lemma int_finite (z : Z) : is_finite (PyInt z).
Proof. split; reflexivity. Qed.

Lemma evaluate_finite (s : State E) : is_finite (evaluate s).
Proof.
  unfold evaluate.
  destruct (is_checkmate E (board s)).
  - destruct (Bool.eqb (turn E (board s)) WHITE); apply int_finite.
  - destruct (is_stalemate E (board s) || is_insufficient_material E (board s)
              || can_claim_draw E (board s)).
    + apply int_finite.
    + eapply fmag_finite, heuristic_mag.
Qed.

Lemma evaluate_number (s : State E) : is_number (evaluate s).
Proof. exact (plt_number_r _ _ (proj1 (evaluate_finite s))). Qed.

End Evaluate.

(** ** Soundness of the cut, for one side

    The loop is compared with the loop without cut, over an order given by
    [lt] and [le] that the tests [better] and [cutoff] decide: the order of
    the scores at a MAX node, its converse at a MIN node. *)

Section Cut.

Context {E : RulesEngine}.

Variable better : pynum -> pynum -> bool.
Variable cutoff : pynum -> pynum -> bool.
Variable lt : pynum -> pynum -> Prop.
Variable le : pynum -> pynum -> Prop.

Hypothesis better_true : forall e m, better e m = true -> lt m e.
Hypothesis better_false :
  forall e m, is_number e -> is_number m -> better e m = false -> le e m.
Hypothesis cutoff_true : forall b o, cutoff b o = true -> le o b.
Hypothesis cutoff_false :
  forall b o, is_number b -> is_number o -> cutoff b o = false -> lt b o.
Hypothesis le_refl : forall x, is_number x -> le x x.
Hypothesis lt_le : forall x y, lt x y -> le x y.
Hypothesis le_trans : forall x y z, le x y -> le y z -> le x z.
Hypothesis lt_le_trans : forall x y z, lt x y -> le y z -> lt x z.
Hypothesis le_lt_trans : forall x y z, le x y -> lt y z -> lt x z.
Hypothesis lt_not_le : forall x y, lt x y -> le y x -> False.

Lemma better_of_lt (e m : pynum) :
  is_number e -> is_number m -> lt m e -> better e m = true.
Proof.
  intros He Hm Hlt. destruct (better e m) eqn:Hb; trivial.
  exfalso. eapply lt_not_le; eauto.
Qed.

Lemma side_loop_full_lower (recf : State E -> option (result E)) :
  forall cs M b v m,
    (forall c, In c cs -> forall v m, recf c = Some (v, m) -> is_number v) ->
    is_number M ->
    side_loop_full better recf cs M b = Some (v, m) ->
    is_number v /\ le M v.
Proof.
  induction cs as [|c cs IH]; intros M b v m Hnum HM H; simpl in H.
  - injection H as <- <-. auto.
  - destruct (recf c) as [[e me]|] eqn:Hc; try discriminate.
    assert (He : is_number e) by (eapply Hnum; [left; reflexivity | eauto]).
    assert (Hrest : forall c', In c' cs ->
              forall v m, recf c' = Some (v, m) -> is_number v)
      by (intros c' Hin; apply Hnum; right; exact Hin).
    destruct (better e M) eqn:Hb.
    + destruct (IH _ _ _ _ Hrest He H) as [Hv Hle]. split; trivial.
      eapply le_trans; [apply lt_le, better_true, Hb | exact Hle].
    + exact (IH _ _ _ _ Hrest HM H).
Qed.

Lemma side_loop_full_child (recf : State E -> option (result E)) :
  forall cs M b v m c e me,
    (forall c', In c' (c :: cs) ->
       forall v m, recf c' = Some (v, m) -> is_number v) ->
    is_number M ->
    recf c = Some (e, me) ->
    side_loop_full better recf (c :: cs) M b = Some (v, m) ->
    le e v.
Proof.
  intros cs M b v m c e me Hnum HM Hc H. simpl in H. rewrite Hc in H.
  assert (He : is_number e) by (eapply Hnum; [left; reflexivity | eauto]).
  assert (Hrest : forall c', In c' cs ->
            forall v m, recf c' = Some (v, m) -> is_number v)
    by (intros c' Hin; apply Hnum; right; exact Hin).
  destruct (better e M) eqn:Hb.
  - apply (proj2 (side_loop_full_lower recf cs e _ v m Hrest He H)).
  - apply (le_trans e M v).
    + apply better_false; auto.
    + apply (proj2 (side_loop_full_lower recf cs M _ v m Hrest HM H)).
Qed.

Lemma side_loop_sound (recf : State E -> option (result E))
    (rec : State E -> pynum -> pynum -> option (result E)) :
  forall cs M b M' b' alpha alpha0 beta,
    (forall c, In c cs -> child_ok lt le recf rec c) ->
    is_number M -> is_number M' -> is_number alpha -> is_number alpha0 ->
    is_number beta ->
    le alpha0 alpha -> le M' alpha -> le M M' -> lt alpha beta ->
    (lt alpha0 M' -> M' = M /\ b' = b) ->
    (le alpha alpha0 \/ le alpha M') ->
    forall v m, side_loop_full better recf cs M b = Some (v, m) ->
    exists v' m',
      side_loop better cutoff rec cs M' b' alpha beta = Some (v', m') /\
      is_number v /\ is_number v' /\
      (lt v' beta -> le v v') /\
      (lt alpha0 v' -> le v' v) /\
      (lt alpha0 v' -> lt v' beta -> v' = v /\ m' = m).
Proof.
  induction cs as [|c cs IH];
    intros M b M' b' alpha alpha0 beta Hch HM HM' Ha Ha0 Hb
           H0a HM'a HMM' Hab Hwin Hmax v m Hfull.
  - simpl in Hfull. injection Hfull as <- <-.
    exists M', b'. simpl.
    split; [reflexivity|]. split; [exact HM|]. split; [exact HM'|].
    split; [intros _; exact HMM'|]. split.
    + intros H. destruct (Hwin H) as [-> _]. apply le_refl, HM.
    + intros H _. exact (Hwin H).
  - assert (Hnum : forall c', In c' (c :: cs) ->
              forall v m, recf c' = Some (v, m) -> is_number v)
      by (intros c' Hin v0 m0 H0; exact (proj1 (Hch c' Hin v0 m0 H0))).
    assert (Hrest : forall c', In c' cs -> child_ok lt le recf rec c')
      by (intros c' Hin; apply Hch; right; exact Hin).
    assert (Hnumrest : forall c', In c' cs ->
              forall v m, recf c' = Some (v, m) -> is_number v)
      by (intros c' Hin; apply Hnum; right; exact Hin).
    destruct (recf c) as [[e me]|] eqn:Hc;
      [|simpl in Hfull; rewrite Hc in Hfull; discriminate].
    pose proof (side_loop_full_child recf cs M b v m c e me Hnum HM Hc Hfull)
      as Hev.
    destruct (Hch c (or_introl eq_refl) e me Hc) as [He Hchild].
    destruct (Hchild alpha beta Ha Hb Hab)
      as (e' & me' & Hrec & He' & Hw1 & Hw2 & Hw3).
    simpl in Hfull. rewrite Hc in Hfull.
    simpl. rewrite Hrec.
    destruct (better e' alpha) eqn:Hba.
    + (* the bound advances to the child's score *)
      pose proof (better_true _ _ Hba) as Hlt.
      assert (HbM' : better e' M' = true)
        by (apply better_of_lt; eauto).
      rewrite HbM'.
      destruct (cutoff e' beta) eqn:Hcut.
      * pose proof (cutoff_true _ _ Hcut) as Hge.
        exists e', (Some (peek E (board c))).
        assert (Hv : is_number v).
        { destruct (better e M); simpl in Hfull.
          - exact (proj1 (side_loop_full_lower recf cs _ _ v m Hnumrest He Hfull)).
          - exact (proj1 (side_loop_full_lower recf cs _ _ v m Hnumrest HM Hfull)). }
        split; [reflexivity|]. split; [exact Hv|]. split; [exact He'|].
        split; [|split].
        -- intros H. exfalso. eapply lt_not_le; eauto.
        -- intros _. eapply le_trans; [apply Hw2; exact Hlt | exact Hev].
        -- intros _ H. exfalso. eapply lt_not_le; eauto.
      * pose proof (cutoff_false _ _ He' Hb Hcut) as Hlt'.
        assert (Heq : e' = e) by (apply Hw3; assumption).
        subst e'.
        assert (HbM : better e M = true).
        { apply better_of_lt; auto. eapply le_lt_trans; eauto. }
        rewrite HbM in Hfull. simpl in Hfull. simpl.
        refine (IH _ _ _ _ _ _ _ Hrest _ _ _ Ha0 Hb _ _ _ _ _ _ v m Hfull);
          auto.
        -- eapply le_trans; [exact H0a | apply lt_le; exact Hlt].
    + (* the bound stays *)
      pose proof (better_false _ _ He' Ha Hba) as Hle.
      assert (Hcut : cutoff alpha beta = false).
      { destruct (cutoff alpha beta) eqn:Hcut; trivial.
        exfalso. eapply lt_not_le; eauto. }
      rewrite Hcut.
      assert (Hee' : le e e')
        by (apply Hw1; eapply le_lt_trans; eauto).
      assert (Hout : lt alpha0 e' -> lt M' e' -> False).
      { intros H1 H2. destruct Hmax as [Hm|Hm].
        - eapply lt_not_le; [exact H1 | eapply le_trans; eauto].
        - eapply lt_not_le; [exact H2 | eapply le_trans; eauto]. }
      destruct (better e' M') eqn:HbM'.
      * pose proof (better_true _ _ HbM') as HltM'.
        assert (Hmax' : le alpha alpha0 \/ le alpha e').
        { destruct Hmax as [Hm|Hm]; [left; exact Hm | right].
          eapply le_trans; [exact Hm | apply lt_le; exact HltM']. }
        destruct (better e M) eqn:HbM; simpl in Hfull; simpl.
        -- refine (IH _ _ _ _ _ _ _ Hrest _ _ _ Ha0 Hb _ _ _ _ _ _ v m Hfull);
             auto.
           intros H. exfalso. eauto.
        -- refine (IH _ _ _ _ _ _ _ Hrest _ _ _ Ha0 Hb _ _ _ _ _ _ v m Hfull);
             auto.
           ++ eapply le_trans; [exact HMM' | apply lt_le; exact HltM'].
           ++ intros H. exfalso. eauto.
      * pose proof (better_false _ _ He' HM' HbM') as HleM'.
        destruct (better e M) eqn:HbM; simpl in Hfull; simpl.
        -- refine (IH _ _ _ _ _ _ _ Hrest _ _ _ Ha0 Hb _ _ _ _ _ _ v m Hfull);
             auto.
           ++ eapply le_trans; eauto.
           ++ intros H. exfalso. destruct (Hwin H) as [-> _].
              eapply lt_not_le; [apply better_true; exact HbM|].
              eapply le_trans; eauto.
        -- refine (IH _ _ _ _ _ _ _ Hrest _ _ _ Ha0 Hb _ _ _ _ _ _ v m Hfull);
             auto.
Qed.

End Cut.

(** ** The two loops of the source are the one-sided loop *)

Section Sides.

Context {E : RulesEngine}.

Lemma max_loop_side (rec : State E -> pynum -> pynum -> option (result E)) :
  forall cs M b alpha beta,
    max_loop rec cs M b alpha beta
    = side_loop py_gt py_ge rec cs M b alpha beta.
Proof. reflexivity. Qed.

Lemma min_loop_side (rec : State E -> pynum -> pynum -> option (result E)) :
  forall cs M b alpha beta,
    min_loop rec cs M b alpha beta
    = side_loop py_lt (fun bound other => py_ge other bound)
        (fun c bound other => rec c other bound) cs M b beta alpha.
Proof.
  induction cs as [|c cs IH]; intros M b alpha beta; simpl; [reflexivity|].
  destruct (rec c alpha beta) as [[e me]|]; [|reflexivity].
  unfold py_min. destruct (py_lt e M), (py_lt e beta); simpl;
    try rewrite IH; reflexivity.
Qed.

Lemma max_loop_full_side (rec : State E -> option (result E)) :
  forall cs M b,
    max_loop_full rec cs M b = side_loop_full py_gt rec cs M b.
Proof. reflexivity. Qed.

Lemma min_loop_full_side (rec : State E -> option (result E)) :
  forall cs M b,
    min_loop_full rec cs M b = side_loop_full py_lt rec cs M b.
Proof. reflexivity. Qed.

End Sides.

(** ** The pruned search against the full search *)

Section Window.

Context {E : RulesEngine}.

Hypothesis bounded : bounded_engine E.

Lemma minimax_window :
  forall fuel (s : State E) d side D v m,
    minimax_full fuel s d side D = Some (v, m) ->
    is_number v /\
    forall alpha beta, is_number alpha -> is_number beta -> plt alpha beta ->
      exists v' m',
        minimax fuel s d alpha beta side D = Some (v', m') /\
        is_number v' /\
        (plt v' beta -> ple v v') /\
        (plt alpha v' -> ple v' v) /\
        (plt alpha v' -> plt v' beta -> v' = v /\ m' = m).
Proof.
  induction fuel as [|fuel IH]; intros s d side D v m H; [discriminate|].
  simpl in H. simpl.
  destruct (isTerminal s || (d =? D)).
  - pose proof (evaluate_number bounded s) as Hn.
    injection H as <- <-. split; [apply (evaluate_number bounded)|].
    intros alpha beta _ _ _. exists (evaluate s), None.
    split; [reflexivity|]. split; [apply (evaluate_number bounded)|].
    split; [|split]; intros; auto using ple_refl.
  - destruct side.
    + rewrite max_loop_full_side in H.
      set (recf := fun child => minimax_full fuel child (d + 1) false D) in *.
      set (rec := fun (child : State E) a b => minimax fuel child (d + 1) a b false D).
      assert (Hch : forall c, In c (moveGen s) -> child_ok plt ple recf rec c).
      { intros c _ v0 m0 H0. destruct (IH _ _ _ _ _ _ H0) as [Hv0 Hw].
        split; trivial. intros bound other Hb Ho Hlt.
        destruct (Hw bound other Hb Ho Hlt)
          as (v' & m' & Hr & Hv' & H1 & H2 & H3).
        exists v', m'. split; [exact Hr|]. split; [exact Hv'|].
        split; [exact H1|]. split; [exact H2|].
        intros Hx Hy. exact (proj1 (H3 Hx Hy)). }
      split.
      * refine (proj1 (side_loop_full_lower py_gt plt ple py_gt_true ple_refl
                         plt_ple ple_trans recf _ _ _ v m _ neg_inf_number H)).
        intros c Hin v0 m0 H0. exact (proj1 (Hch c Hin v0 m0 H0)).
      * intros alpha beta Ha Hb Hab. rewrite max_loop_side.
        destruct (side_loop_sound py_gt py_ge plt ple
                    py_gt_true py_gt_false py_ge_true py_ge_false
                    ple_refl plt_ple ple_trans plt_ple_trans ple_plt_trans
                    plt_not_ple
                    recf rec (moveGen s) neg_inf None neg_inf None
                    alpha alpha beta Hch neg_inf_number neg_inf_number
                    Ha Ha Hb (ple_refl _ Ha) (neg_inf_least _ Ha)
                    (ple_refl _ neg_inf_number) Hab
                    (fun _ => conj eq_refl eq_refl)
                    (or_introl (ple_refl _ Ha)) v m H)
          as (v' & m' & Hr & _ & Hv' & H1 & H2 & H3).
        exists v', m'. auto.
    + rewrite min_loop_full_side in H.
      set (recf := fun child => minimax_full fuel child (d + 1) true D) in *.
      set (rec := fun (child : State E) bound other =>
                    minimax fuel child (d + 1) other bound true D).
      set (gt := fun x y => plt y x).
      set (ge := fun x y => ple y x).
      assert (Hch : forall c, In c (moveGen s) -> child_ok gt ge recf rec c).
      { intros c _ v0 m0 H0. destruct (IH _ _ _ _ _ _ H0) as [Hv0 Hw].
        split; trivial. intros bound other Hb Ho Hlt.
        destruct (Hw other bound Ho Hb Hlt)
          as (v' & m' & Hr & Hv' & H1 & H2 & H3).
        exists v', m'. split; [exact Hr|]. split; [exact Hv'|].
        split; [exact H2|]. split; [exact H1|].
        intros Hx Hy. exact (proj1 (H3 Hy Hx)). }
      assert (ge_refl : forall x, is_number x -> ge x x)
        by (intros; apply ple_refl; assumption).
      assert (gt_ge : forall x y, gt x y -> ge x y)
        by (intros x y; apply plt_ple).
      assert (ge_trans : forall x y z, ge x y -> ge y z -> ge x z)
        by (intros x y z H1 H2; exact (ple_trans _ _ _ H2 H1)).
      assert (gt_ge_trans : forall x y z, gt x y -> ge y z -> gt x z)
        by (intros x y z H1 H2; exact (ple_plt_trans _ _ _ H2 H1)).
      assert (ge_gt_trans : forall x y z, ge x y -> gt y z -> gt x z)
        by (intros x y z H1 H2; exact (plt_ple_trans _ _ _ H2 H1)).
      assert (gt_not_ge : forall x y, gt x y -> ge y x -> False)
        by (intros x y; apply plt_not_ple).
      split.
      * refine (proj1 (side_loop_full_lower py_lt gt ge py_lt_true ge_refl
                         gt_ge ge_trans recf _ _ _ v m _ pos_inf_number H)).
        intros c Hin v0 m0 H0. exact (proj1 (Hch c Hin v0 m0 H0)).
      * intros alpha beta Ha Hb Hab. rewrite min_loop_side.
        destruct (side_loop_sound py_lt (fun bound other => py_ge other bound)
                    gt ge py_lt_true py_lt_false
                    (fun b o => py_ge_true o b)
                    (fun b o Hb' Ho' => py_ge_false o b Ho' Hb')
                    ge_refl gt_ge ge_trans gt_ge_trans ge_gt_trans gt_not_ge
                    recf rec (moveGen s) pos_inf None pos_inf None
                    beta beta alpha Hch pos_inf_number pos_inf_number
                    Hb Hb Ha (ple_refl _ Hb) (pos_inf_greatest _ Hb)
                    (ple_refl _ pos_inf_number) Hab
                    (fun _ => conj eq_refl eq_refl)
                    (or_introl (ple_refl _ Hb)) v m H)
          as (v' & m' & Hr & _ & Hv' & H1 & H2 & H3).
        exists v', m'. split; [exact Hr|]. split; [exact Hv'|].
        split; [exact H2|]. split; [exact H1|].
        intros Hx Hy. exact (H3 Hy Hx).
Qed.

End Window.

(** ** Enough fuel: the search returns *)

Section Totality.

Context {E : RulesEngine}.

Lemma side_loop_full_total (better : pynum -> pynum -> bool)
    (recf : State E -> option (result E)) :
  forall cs M b,
    (forall c, In c cs -> exists r, recf c = Some r) ->
    exists r, side_loop_full better recf cs M b = Some r.
Proof.
  induction cs as [|c cs IH]; intros M b Hrec; simpl.
  - eauto.
  - destruct (Hrec c (or_introl eq_refl)) as [[e me] ->].
    destruct (better e M); apply IH; intros c' Hin; apply Hrec; right;
      exact Hin.
Qed.

Lemma minimax_full_total :
  forall fuel (s : State E) d side D,
    d <= D -> (Z.to_nat (D - d) < fuel)%nat ->
    exists r, minimax_full fuel s d side D = Some r.
Proof.
  induction fuel as [|fuel IH]; intros s d side D Hd Hfuel; [lia|].
  simpl. destruct (isTerminal s || (d =? D)) eqn:Hbase; [eauto|].
  apply orb_false_elim in Hbase. destruct Hbase as [_ Hne].
  apply Z.eqb_neq in Hne.
  assert (Hrec : forall side' c, In c (moveGen s) ->
            exists r, minimax_full fuel c (d + 1) side' D = Some r)
    by (intros side' c _; apply IH; lia).
  destruct side.
  - rewrite max_loop_full_side. apply side_loop_full_total, Hrec.
  - rewrite min_loop_full_side. apply side_loop_full_total, Hrec.
Qed.


Lemma minimax_full_max_node (fuel : nat) (s : State E) (d D : Z) :
  isTerminal s = false -> d <> D ->
  minimax_full (S fuel) s d true D
  = max_loop_full (fun child => minimax_full fuel child (d + 1) false D)
      (moveGen s) neg_inf None.
Proof.
  intros Hterm Hne. apply Z.eqb_neq in Hne. simpl. rewrite Hterm, Hne.
  reflexivity.
Qed.

End Totality.

(** ** With a move available at every unfinished position, the search
    returns a finite score and a move *)

Section Progress.

Context {E : RulesEngine}.

Variable better : pynum -> pynum -> bool.
Variable cutoff : pynum -> pynum -> bool.
Variable init : pynum.

Hypothesis better_init : forall e, is_finite e -> better e init = true.

Lemma side_loop_progress
    (rec : State E -> pynum -> pynum -> option (result E)) :
  forall cs M bm bound other,
    (forall c, In c cs -> forall a b,
        exists v m, rec c a b = Some (v, m) /\ is_finite v) ->
    (M = init /\ cs <> []) \/ (is_finite M /\ bm <> None) ->
    exists v m,
      side_loop better cutoff rec cs M bm bound other = Some (v, m) /\
      is_finite v /\ m <> None.
Proof.
  induction cs as [|c cs IH]; intros M bm bound other Hrec Hstart.
  - destruct Hstart as [[_ Hne]|[HM Hbm]]; [congruence|].
    exists M, bm. auto.
  - simpl.
    destruct (Hrec c (or_introl eq_refl) bound other) as (e & me & -> & He).
    assert (Hrest : forall c', In c' cs -> forall a b,
              exists v m, rec c' a b = Some (v, m) /\ is_finite v)
      by (intros c' Hin; apply Hrec; right; exact Hin).
    assert (Hnext : exists M' bm',
              (if better e M then (e, Some (peek E (board c))) else (M, bm))
              = (M', bm') /\ is_finite M' /\ bm' <> None).
    { destruct Hstart as [[-> _]|[HM Hbm]].
      - rewrite (better_init e He). eexists _, _. split; [reflexivity|].
        split; [exact He | discriminate].
      - destruct (better e M); eexists _, _; (split; [reflexivity|]);
          split; trivial; discriminate. }
    destruct Hnext as (M' & bm' & -> & HM' & Hbm').
    destruct (cutoff _ other).
    + exists M', bm'. auto.
    + apply IH; auto.
Qed.

End Progress.

Section ProgressNode.

Context {E : RulesEngine}.

Hypothesis bounded : bounded_engine E.
Hypothesis over : no_moves_is_over E.

Lemma moveGen_nonempty (s : State E) : isTerminal s = false -> moveGen s <> [].
Proof.
  unfold isTerminal, moveGen. intros Hterm Hnil.
  apply map_eq_nil in Hnil. rewrite (over _ Hnil) in Hterm. discriminate.
Qed.

Lemma minimax_progress :
  forall fuel (s : State E) d alpha beta side D,
    d <= D -> (Z.to_nat (D - d) < fuel)%nat ->
    exists v m,
      minimax fuel s d alpha beta side D = Some (v, m) /\
      is_finite v /\
      (isTerminal s = false -> d <> D -> m <> None).
Proof.
  induction fuel as [|fuel IH]; intros s d alpha beta side D Hd Hfuel; [lia|].
  simpl. destruct (isTerminal s || (d =? D)) eqn:Hbase.
  - exists (evaluate s), None. split; [reflexivity|].
    split; [apply evaluate_finite, bounded|].
    intros Ht Hne. apply orb_true_iff in Hbase.
    destruct Hbase as [Hb|Hb]; [congruence|].
    apply Z.eqb_eq in Hb. contradiction.
  - apply orb_false_elim in Hbase. destruct Hbase as [Hterm Hne].
    apply Z.eqb_neq in Hne.
    pose proof (moveGen_nonempty s Hterm) as Hcs.
    destruct side.
    + rewrite max_loop_side.
      destruct (side_loop_progress py_gt py_ge neg_inf
                  (fun e He => py_gt_of_plt _ _ (proj1 He))
                  (fun child a b => minimax fuel child (d + 1) a b false D)
                  (moveGen s) neg_inf None alpha beta)
        as (v & m & Hr & Hv & Hm).
      * intros c _ a b.
        destruct (IH c (d + 1) a b false D) as (v & m & Hr & Hv & _);
          try lia. eauto.
      * left. auto.
      * exists v, m. auto.
    + rewrite min_loop_side.
      destruct (side_loop_progress py_lt (fun bound other => py_ge other bound)
                  pos_inf
                  (fun e He => py_lt_of_plt _ _ (proj2 He))
                  (fun child b a => minimax fuel child (d + 1) a b true D)
                  (moveGen s) pos_inf None beta alpha)
        as (v & m & Hr & Hv & Hm).
      * intros c _ a b.
        destruct (IH c (d + 1) b a true D) as (v & m & Hr & Hv & _);
          try lia. eauto.
      * left. auto.
      * exists v, m. auto.
Qed.

End ProgressNode.

(** ** The two bound rules *)

Section Rules.

Context {E : RulesEngine}.

Lemma max_loop_traced_ext (rule : bound_rule)
    (rec1 rec2 : State E -> pynum -> pynum -> option traced) :
  (forall c a b, rec1 c a b = rec2 c a b) ->
  forall cs M bm alpha beta log,
    max_loop_traced rule rec1 cs M bm alpha beta log
    = max_loop_traced rule rec2 cs M bm alpha beta log.
Proof.
  intros Hext. induction cs as [|c cs IH]; intros; simpl; [reflexivity|].
  rewrite Hext. destruct (rec2 c alpha beta) as [[[e me] below]|]; trivial.
  destruct (py_gt e M); destruct (py_ge _ beta); trivial.
Qed.

Lemma min_loop_traced_ext (rule : bound_rule)
    (rec1 rec2 : State E -> pynum -> pynum -> option traced) :
  (forall c a b, rec1 c a b = rec2 c a b) ->
  forall cs M bm alpha beta log,
    min_loop_traced rule rec1 cs M bm alpha beta log
    = min_loop_traced rule rec2 cs M bm alpha beta log.
Proof.
  intros Hext. induction cs as [|c cs IH]; intros; simpl; [reflexivity|].
  rewrite Hext. destruct (rec2 c alpha beta) as [[[e me] below]|]; trivial.
  destruct (py_lt e M); destruct (py_ge alpha _); trivial.
Qed.

(** While the running best does not exceed the bound, advancing the bound
    by the child's score or by the running best gives the same bound. *)
Lemma max_bound_rules (e M alpha : pynum) :
  py_gt M alpha = false -> is_number M ->
  let M' := if py_gt e M then e else M in
  py_max alpha e = py_max alpha M' /\
  py_gt M' (py_max alpha e) = false /\ is_number M'.
Proof.
  intros Hinv HM. cbn zeta. unfold py_max.
  destruct (py_gt e M) eqn:HeM.
  - split; [reflexivity|].
    split; [|exact (plt_number_r _ _ (py_gt_true _ _ HeM))].
    destruct (py_gt e alpha) eqn:Hea; [apply py_gt_irrefl | exact Hea].
  - rewrite Hinv.
    assert (Hea : py_gt e alpha = false).
    { destruct (py_gt e alpha) eqn:Hea; trivial. exfalso.
      apply py_gt_true in Hea.
      pose proof (plt_number_l _ _ Hea) as Ha.
      pose proof (plt_number_r _ _ Hea) as He.
      pose proof (py_gt_false _ _ HM Ha Hinv) as H1.
      pose proof (py_gt_false _ _ He HM HeM) as H2.
      exact (plt_not_ple _ _ Hea (ple_trans _ _ _ H2 H1)). }
    rewrite Hea. auto.
Qed.

Lemma min_bound_rules (e M beta : pynum) :
  py_lt M beta = false -> is_number M ->
  let M' := if py_lt e M then e else M in
  py_min beta e = py_min beta M' /\
  py_lt M' (py_min beta e) = false /\ is_number M'.
Proof.
  intros Hinv HM. cbn zeta. unfold py_min.
  destruct (py_lt e M) eqn:HeM.
  - split; [reflexivity|].
    split; [|exact (plt_number_l _ _ (py_lt_true _ _ HeM))].
    destruct (py_lt e beta) eqn:Heb; [apply py_lt_irrefl | exact Heb].
  - rewrite Hinv.
    assert (Heb : py_lt e beta = false).
    { destruct (py_lt e beta) eqn:Heb; trivial. exfalso.
      apply py_lt_true in Heb.
      pose proof (plt_number_l _ _ Heb) as He.
      pose proof (plt_number_r _ _ Heb) as Hb.
      pose proof (py_lt_false _ _ HM Hb Hinv) as H1.
      pose proof (py_lt_false _ _ He HM HeM) as H2.
      exact (plt_not_ple _ _ Heb (ple_trans _ _ _ H1 H2)). }
    rewrite Heb. auto.
Qed.

Lemma max_loop_traced_rules
    (rec : State E -> pynum -> pynum -> option traced) :
  forall cs M bm alpha beta log,
    py_gt M alpha = false -> is_number M ->
    max_loop_traced FromChild rec cs M bm alpha beta log
    = max_loop_traced FromBest rec cs M bm alpha beta log.
Proof.
  induction cs as [|c cs IH]; intros M bm alpha beta log Hinv HM; simpl;
    [reflexivity|].
  destruct (rec c alpha beta) as [[[e me] below]|]; [|reflexivity].
  destruct (max_bound_rules e M alpha Hinv HM) as (Heq & Hinv' & HM').
  unfold next_bound.
  destruct (py_gt e M); cbn zeta in *; try rewrite <- Heq;
    destruct (py_ge (py_max alpha e) beta); trivial; apply IH; assumption.
Qed.

Lemma min_loop_traced_rules
    (rec : State E -> pynum -> pynum -> option traced) :
  forall cs M bm alpha beta log,
    py_lt M beta = false -> is_number M ->
    min_loop_traced FromChild rec cs M bm alpha beta log
    = min_loop_traced FromBest rec cs M bm alpha beta log.
Proof.
  induction cs as [|c cs IH]; intros M bm alpha beta log Hinv HM; simpl;
    [reflexivity|].
  destruct (rec c alpha beta) as [[[e me] below]|]; [|reflexivity].
  destruct (min_bound_rules e M beta Hinv HM) as (Heq & Hinv' & HM').
  unfold next_bound.
  destruct (py_lt e M); cbn zeta in *; try rewrite <- Heq;
    destruct (py_ge alpha (py_min beta e)); trivial; apply IH; assumption.
Qed.

Lemma minimax_traced_rules :
  forall fuel (s : State E) d alpha beta side D,
    minimax_traced FromChild fuel s d alpha beta side D
    = minimax_traced FromBest fuel s d alpha beta side D.
Proof.
  induction fuel as [|fuel IH]; intros; simpl; [reflexivity|].
  destruct (isTerminal s || (d =? D)); [reflexivity|].
  destruct side.
  - rewrite max_loop_traced_rules
      by (apply py_gt_neg_inf || apply neg_inf_number).
    apply max_loop_traced_ext. intros; apply IH.
  - rewrite min_loop_traced_rules
      by (apply py_lt_pos_inf || apply pos_inf_number).
    apply min_loop_traced_ext. intros; apply IH.
Qed.

(** Forgetting the trace gives the search of the source. *)
Lemma max_loop_traced_erase
    (rect : State E -> pynum -> pynum -> option traced)
    (rec : State E -> pynum -> pynum -> option (result E)) :
  (forall c a b, option_map fst (rect c a b) = rec c a b) ->
  forall cs M bm alpha beta log,
    option_map fst (max_loop_traced FromChild rect cs M bm alpha beta log)
    = max_loop rec cs M bm alpha beta.
Proof.
  intros Herase. induction cs as [|c cs IH]; intros; simpl; [reflexivity|].
  rewrite <- Herase.
  destruct (rect c alpha beta) as [[[e me] below]|]; [|reflexivity].
  cbn [option_map fst next_bound].
  destruct (py_gt e M); destruct (py_ge (py_max alpha e) beta); trivial.
Qed.

Lemma min_loop_traced_erase
    (rect : State E -> pynum -> pynum -> option traced)
    (rec : State E -> pynum -> pynum -> option (result E)) :
  (forall c a b, option_map fst (rect c a b) = rec c a b) ->
  forall cs M bm alpha beta log,
    option_map fst (min_loop_traced FromChild rect cs M bm alpha beta log)
    = min_loop rec cs M bm alpha beta.
Proof.
  intros Herase. induction cs as [|c cs IH]; intros; simpl; [reflexivity|].
  rewrite <- Herase.
  destruct (rect c alpha beta) as [[[e me] below]|]; [|reflexivity].
  cbn [option_map fst next_bound].
  destruct (py_lt e M); destruct (py_ge alpha (py_min beta e)); trivial.
Qed.

Lemma minimax_traced_erase :
  forall fuel (s : State E) d alpha beta side D,
    option_map fst (minimax_traced FromChild fuel s d alpha beta side D)
    = minimax fuel s d alpha beta side D.
Proof.
  induction fuel as [|fuel IH]; intros; simpl; [reflexivity|].
  destruct (isTerminal s || (d =? D)); [reflexivity|].
  destruct side.
  - apply max_loop_traced_erase. intros; apply IH.
  - apply min_loop_traced_erase. intros; apply IH.
Qed.

End Rules.

(** ** The root of the search *)

Section Root.

Context {E : RulesEngine}.

Hypothesis bounded : bounded_engine E.

(** With the full window the pruned search returns the score of the full
    search, and its move when the score is finite. *)
Lemma minimax_root :
  forall fuel (s : State E) d side D v m,
    minimax_full fuel s d side D = Some (v, m) ->
    exists m',
      minimax fuel s d neg_inf pos_inf side D = Some (v, m') /\
      (is_finite v -> m' = m).
Proof.
  intros fuel s d side D v m H.
  destruct (minimax_window bounded fuel s d side D v m H) as [Hv Hw].
  destruct (Hw neg_inf pos_inf neg_inf_number pos_inf_number
              neg_inf_lt_pos_inf)
    as (v' & m' & Hr & Hv' & H1 & H2 & H3).
  destruct (number_cases v' Hv') as [->|[[Hlo Hhi]| ->]].
  - pose proof (ple_neg_inf _ (H1 neg_inf_lt_pos_inf)) as ->.
    exists m'. split; [exact Hr|].
    intros [Hf _]. exfalso. exact (plt_not_ple _ _ Hf (plt_ple _ _ Hf)).
  - destruct (H3 Hlo Hhi) as [-> ->]. exists m. auto.
  - pose proof (pos_inf_ple _ (H2 neg_inf_lt_pos_inf)) as ->.
    exists m'. split; [exact Hr|].
    intros [_ Hf]. exfalso. exact (plt_not_ple _ _ Hf (plt_ple _ _ Hf)).
Qed.

End Root.

(** ** The first best child *)

Section FirstBest.

Context {E : RulesEngine}.

Variable score : State E -> pynum.
Variable recf : State E -> option (result E).

Hypothesis score_number : forall c, is_number (score c).
Hypothesis recf_score : forall c, exists m, recf c = Some (score c, m).


End FirstBest.

(** ** The fields of a FEN string *)

Lemma has_space_append (a b : string) :
  has_space (a ++ b) = has_space a || has_space b.
Proof.
  induction a as [|c a IH]; simpl; [reflexivity|].
  rewrite IH. apply orb_assoc.
Qed.

Lemma uint_no_space (d : Decimal.uint) :
  has_space (DecimalString.NilEmpty.string_of_uint d) = false.
Proof. induction d; simpl; trivial. Qed.

Lemma str_int_no_space (z : Z) : has_space (str_int z) = false.
Proof.
  unfold str_int.
  destruct (Z.to_int z) as [d|d]; simpl;
    destruct d; simpl; trivial; apply uint_no_space.
Qed.

Lemma str_int_inj (x y : Z) : str_int x = str_int y -> x = y.
Proof.
  unfold str_int. intros H.
  assert (Hn : forall z, Z.to_int z <> Decimal.Pos Decimal.Nil /\
                         Z.to_int z <> Decimal.Neg Decimal.Nil).
  { intros [|p|p]; simpl; split; try discriminate;
      intros Hc; injection Hc as Hc;
      exact (DecimalPos.Unsigned.to_uint_nonnil p Hc). }
  pose proof (DecimalString.NilZero.isi _ (proj1 (Hn x)) (proj2 (Hn x))) as Hx.
  pose proof (DecimalString.NilZero.isi _ (proj1 (Hn y)) (proj2 (Hn y))) as Hy.
  rewrite H, Hy in Hx. injection Hx as Hx.
  rewrite <- (DecimalZ.of_to x), <- (DecimalZ.of_to y), Hx. reflexivity.
Qed.

(** The last field of a string of fields separated by spaces. *)
Lemma split_last_field (a b x y : string) :
  has_space x = false -> has_space y = false ->
  (a ++ " " ++ x = b ++ " " ++ y)%string -> a = b /\ x = y.
Proof.
  intros Hx Hy. revert b.
  induction a as [|c a IH]; intros [|d b] H; simpl in H.
  - injection H as H. auto.
  - injection H as Hc H. rewrite H, has_space_append in Hx.
    simpl in Hx. rewrite orb_true_r in Hx. discriminate.
  - injection H as Hc H. rewrite <- H, has_space_append in Hy.
    simpl in Hy. rewrite orb_true_r in Hy. discriminate.
  - injection H as -> H. destruct (IH b H) as [-> ->]. auto.
Qed.

Lemma string_append_assoc (a b c : string) :
  ((a ++ b) ++ c = a ++ b ++ c)%string.
Proof. induction a as [|x a IH]; simpl; [|rewrite IH]; reflexivity. Qed.

(** Two FEN strings are equal exactly when their three parts are. *)
Lemma fen_fields (e1 e2 : string) (h1 h2 f1 f2 : Z) :
  (e1 ++ " " ++ str_int h1 ++ " " ++ str_int f1
   = e2 ++ " " ++ str_int h2 ++ " " ++ str_int f2)%string <->
  e1 = e2 /\ h1 = h2 /\ f1 = f2.
Proof.
  split.
  - intros H.
    rewrite <- (string_append_assoc " " (str_int h1)) in H.
    rewrite <- (string_append_assoc " " (str_int h2)) in H.
    rewrite <- (string_append_assoc e1), <- (string_append_assoc e2) in H.
    apply split_last_field in H; try apply str_int_no_space.
    destruct H as [H Hf].
    apply split_last_field in H; try apply str_int_no_space.
    destruct H as [He Hh].
    split; [exact He|]. split; apply str_int_inj; assumption.
  - intros (-> & -> & ->). reflexivity.
Qed.

(** ** Where a returned move comes from *)

Section Origin.

Context {E : RulesEngine}.

(** The loop returns what it was started with, or the score a child
    returned together with the move of that child. *)
Lemma side_loop_origin (better cutoff : pynum -> pynum -> bool)
    (rec : State E -> pynum -> pynum -> option (result E)) :
  forall cs M bm bound other v mv,
    side_loop better cutoff rec cs M bm bound other = Some (v, mv) ->
    (v = M /\ mv = bm) \/
    exists c a m,
      In c cs /\ rec c a other = Some (v, m) /\
      mv = Some (peek E (board c)).
Proof.
  induction cs as [|c cs IH]; intros M bm bound other v mv H; simpl in H.
  - injection H as <- <-. left. auto.
  - destruct (rec c bound other) as [[e me]|] eqn:Hc; [|discriminate].
    assert (Hstep : forall M' bm' : _,
              (if better e M then (e, Some (peek E (board c))) else (M, bm))
              = (M', bm') ->
              (v = M' /\ mv = bm') \/
              (exists c' a m,
                  In c' cs /\ rec c' a other = Some (v, m) /\
                  mv = Some (peek E (board c'))) ->
              (v = M /\ mv = bm) \/
              exists c' a m,
                In c' (c :: cs) /\ rec c' a other = Some (v, m) /\
                mv = Some (peek E (board c'))).
    { intros M' bm' Heq [[-> ->]|(c' & a & m & Hin & Hr & Hm)].
      - destruct (better e M); injection Heq as <- <-; [|left; auto].
        right. exists c, bound, me. split; [left; reflexivity|]. auto.
      - right. exists c', a, m. split; [right; exact Hin|]. auto. }
    destruct (if better e M then (e, Some (peek E (board c))) else (M, bm))
      as [M' bm'] eqn:Heq.
    destruct (cutoff _ other).
    + injection H as <- <-. apply (Hstep M' bm' eq_refl). left. auto.
    + apply (Hstep M' bm' eq_refl). exact (IH _ _ _ _ _ _ H).
Qed.

(** A move returned by the search is the move of a successor, and the score
    returned with it is the score the search returned for that successor
    under some bounds. *)
Lemma minimax_move_origin :
  forall fuel (s : State E) d alpha beta side D v mv,
    minimax (S fuel) s d alpha beta side D = Some (v, Some mv) ->
    exists c a b m,
      In c (moveGen s) /\
      minimax fuel c (d + 1) a b (negb side) D = Some (v, m) /\
      mv = peek E (board c).
Proof.
  intros fuel s d alpha beta side D v mv H. simpl in H.
  destruct (isTerminal s || (d =? D)); [discriminate|].
  destruct side.
  - rewrite max_loop_side in H.
    destruct (side_loop_origin _ _ _ _ _ _ _ _ _ _ H)
      as [[_ Hbm]|(c & a & m & Hin & Hr & Hm)]; [discriminate|].
    injection Hm as ->. exists c, a, beta, m. auto.
  - rewrite min_loop_side in H.
    destruct (side_loop_origin _ _ _ _ _ _ _ _ _ _ H)
      as [[_ Hbm]|(c & b & m & Hin & Hr & Hm)]; [discriminate|].
    injection Hm as ->. exists c, alpha, b, m. auto.
Qed.

End Origin.

(** ** The sample engines *)

Lemma Toy_bounded : bounded_engine Toy.engine.
Proof.
  intros [n t]. unfold len.
  destruct n, t; (split; [|split]); try (intros c sq); vm_compute;
    first [reflexivity | intro Hc; discriminate Hc].
Qed.

Lemma Toy_over : no_moves_is_over Toy.engine.
Proof.
  intros b Hnil. simpl in *. unfold Toy.no_moves. rewrite Hnil. reflexivity.
Qed.

Lemma Toy_peeks : peek_after_push Toy.engine.
Proof.
  intros [n t] m. simpl. unfold Toy.t_legal_moves. simpl.
  destruct (Bool.eqb t (Toy.side n)); [|intros []].
  destruct n; simpl; intros Hin;
    repeat (destruct Hin as [<-|Hin]; [reflexivity|]); destruct Hin.
Qed.

Lemma Table_game_over : game_over_law Table.engine.
Proof. intros [[] t c|m]; reflexivity. Qed.

Lemma Table_determined : configuration_determined Table.engine.
Proof.
  intros [[] [] c1|m1] [[] [] c2|m2]; simpl; intros H; try discriminate H;
    repeat split.
Qed.

(** The float literals are the correctly rounded decimal fractions. *)
Lemma literals_rounded :
  SFdiv prec emax (float_of_int 2) (float_of_int 10) = f0_2 /\
  SFdiv prec emax (float_of_int 5) (float_of_int 100) = f0_05 /\
  SFdiv prec emax (float_of_int 1) (float_of_int 2) = f0_5 /\
  map float_of_int [1; 4; 6; 10; 200] = [f1_0; f4_0; f6_0; f10_0; f200_0].
Proof. vm_compute. repeat split. Qed.

(** King and rook against king: material 6, mobility [0.05 * (15 - 5)]. *)
Lemma rook_fresh_score :
  evaluate Table.rook_fresh = PyFloat (S754_finite false 7318349394477056 (-50))
  /\ py_eq (evaluate Table.rook_fresh)
       (PyFloat (SFdiv prec emax (float_of_int 13) (float_of_int 2))) = true.
Proof. vm_compute. split; reflexivity. Qed.

(** In the small tree the second reply to the second move is cut off: the
    search two plies deep enters nine of the ten states. *)
Lemma toy_search_cuts :
  option_map (fun r => List.length (snd r))
    (minimax_traced FromChild 3 Toy.root 0 neg_inf pos_inf true 2) = Some 9%nat
  /\ option_map snd (minimax 3 Toy.root 0 neg_inf pos_inf true 2)
     = Some (Some 2).
Proof. vm_compute. split; reflexivity. Qed.

(** * The program against its specification *)

(** C1.  On a finished game the evaluation returns a fixed integer that
    depends only on how the game ended: [-10000] when the side to move is
    checkmated and is White, [10000] when it is checkmated and is Black, and
    [0] when the position is a stalemate, has insufficient material or allows
    a draw claim.  The checkmate test comes first in the source, so the draw
    case is the one of a position that is not checkmate. *)
Theorem evaluate_terminal (E : RulesEngine) (state : State E) :
  (is_checkmate E (board state) = true -> turn E (board state) = WHITE ->
   evaluate state = PyInt (-10000)) /\
  (is_checkmate E (board state) = true -> turn E (board state) = BLACK ->
   evaluate state = PyInt 10000) /\
  (is_checkmate E (board state) = false ->
   is_stalemate E (board state) = true \/
   is_insufficient_material E (board state) = true \/
   can_claim_draw E (board state) = true ->
   evaluate state = PyInt 0).
Proof.
  unfold evaluate. split; [|split].
  - intros -> ->. reflexivity.
  - intros -> ->. reflexivity.
  - intros -> Hdraw.
    assert (Hor : is_stalemate E (board state)
                  || is_insufficient_material E (board state)
                  || can_claim_draw E (board state) = true).
    { destruct Hdraw as [->|[->| ->]]; rewrite ?orb_true_r; reflexivity. }
    rewrite Hor. reflexivity.
Qed.

Lemma evaluate_terminal_witness :
  evaluate Toy.white_mated = PyInt (-10000) /\
  evaluate Toy.black_mated = PyInt 10000 /\
  evaluate Table.kings_only = PyInt 0.
Proof.
  split; [|split].
  - apply (proj1 (evaluate_terminal Toy.engine Toy.white_mated)); reflexivity.
  - apply (proj1 (proj2 (evaluate_terminal Toy.engine Toy.black_mated)));
      reflexivity.
  - apply (proj2 (proj2 (evaluate_terminal Table.engine Table.kings_only)));
      [reflexivity | right; left; reflexivity].
Defined.

(** C2.  Pruning never changes the score.  On a 64-square board, whenever
    the unpruned search ([alpha] and [beta] fixed at the infinities, no early
    break) returns a score, the search of the source started from the window
    [(-inf, +inf)] returns the same score with the same fuel; and when
    [depth <= maxDepth] both return, as soon as the fuel exceeds
    [maxDepth - depth]. *)
Theorem pruning_keeps_score (E : RulesEngine) (bounded : bounded_engine E)
    (fuel : nat) (state : State E) (depth : Z) (maximizingPlayer : bool)
    (maxDepth : Z) :
  (forall v m,
      minimax_full fuel state depth maximizingPlayer maxDepth = Some (v, m) ->
      exists m',
        minimax fuel state depth neg_inf pos_inf maximizingPlayer maxDepth
        = Some (v, m')) /\
  (depth <= maxDepth -> (Z.to_nat (maxDepth - depth) < fuel)%nat ->
   exists v m m',
     minimax_full fuel state depth maximizingPlayer maxDepth = Some (v, m) /\
     minimax fuel state depth neg_inf pos_inf maximizingPlayer maxDepth
     = Some (v, m')).
Proof.
  split.
  - intros v m H.
    destruct (minimax_root bounded fuel state depth maximizingPlayer maxDepth
                v m H) as (m' & Hr & _).
    exists m'. exact Hr.
  - intros Hd Hfuel.
    destruct (minimax_full_total fuel state depth maximizingPlayer maxDepth
                Hd Hfuel) as [[v m] H].
    destruct (minimax_root bounded fuel state depth maximizingPlayer maxDepth
                v m H) as (m' & Hr & _).
    exists v, m, m'. auto.
Qed.

Lemma pruning_keeps_score_witness :
  bounded_engine Toy.engine /\
  exists v m m',
    minimax_full 3 Toy.root 0 true 2 = Some (v, m) /\
    minimax 3 Toy.root 0 neg_inf pos_inf true 2 = Some (v, m').
Proof.
  split; [exact Toy_bounded|].
  apply (proj2 (pruning_keeps_score Toy.engine Toy_bounded 3 Toy.root 0 true 2));
    [lia | simpl; lia].
Defined.

(** C3, as amended.  The source advances [alpha] (and [beta]) from the score
    each child returned.  Because the bound accumulates the maximum (minimum)
    over all the children seen so far, this is the update from the running
    best: for every state, depth, bounds and side both rules enter the same
    states in the same order and return the same score and move. *)
Theorem bound_rules_agree (E : RulesEngine) (fuel : nat) (state : State E)
    (depth : Z) (alpha beta : pynum) (maximizingPlayer : bool) (maxDepth : Z) :
  minimax_traced FromChild fuel state depth alpha beta maximizingPlayer maxDepth
  = minimax_traced FromBest fuel state depth alpha beta maximizingPlayer maxDepth
  /\
  minimax fuel state depth alpha beta maximizingPlayer maxDepth
  = option_map fst
      (minimax_traced FromBest fuel state depth alpha beta maximizingPlayer
         maxDepth).
Proof.
  split.
  - apply minimax_traced_rules.
  - rewrite <- minimax_traced_rules. symmetry. apply minimax_traced_erase.
Qed.

(** C3, as stated, fails: there is no engine, state, depth and pair of bounds
    at which the rule of the source enters fewer states, or returns another
    move, than the update from the running best. *)
Lemma no_extra_pruning :
  ~ exists (E : RulesEngine) (fuel : nat) (state : State E) (depth : Z)
      (alpha beta : pynum) (maximizingPlayer : bool) (maxDepth : Z)
      (r1 r2 : @traced E),
      minimax_traced FromChild fuel state depth alpha beta maximizingPlayer
        maxDepth = Some r1 /\
      minimax_traced FromBest fuel state depth alpha beta maximizingPlayer
        maxDepth = Some r2 /\
      ((List.length (snd r1) < List.length (snd r2))%nat \/
       snd (fst r1) <> snd (fst r2)).
Proof.
  intros (E & fuel & state & depth & alpha & beta & side & maxDepth & r1 & r2
          & H1 & H2 & Hdiff).
  rewrite minimax_traced_rules in H1. rewrite H1 in H2.
  injection H2 as <-. destruct Hdiff as [Hlen|Hmove]; [lia | congruence].
Qed.

(** C4, as amended.  [moveGen] returns one state per legal move, so it is
    empty exactly when the engine lists no legal move; for an engine that
    reports every position without a legal move as over, an empty result
    implies [isTerminal]. *)
Theorem moveGen_empty_iff (E : RulesEngine) (state : State E) :
  (moveGen state = [] <-> legal_moves E (board state) = []) /\
  (no_moves_is_over E -> moveGen state = [] -> isTerminal state = true).
Proof.
  assert (Hiff : moveGen state = [] <-> legal_moves E (board state) = []).
  { unfold moveGen. split.
    - apply map_eq_nil.
    - intros ->. reflexivity. }
  split; [exact Hiff|].
  intros over Hnil. apply over, Hiff, Hnil.
Qed.

Lemma moveGen_empty_iff_witness :
  no_moves_is_over Toy.engine /\
  moveGen Toy.white_mated = [] /\ isTerminal Toy.white_mated = true.
Proof.
  split; [exact Toy_over|]. split; [reflexivity|].
  apply (proj2 (moveGen_empty_iff Toy.engine Toy.white_mated) Toy_over).
  reflexivity.
Defined.

(** C4, as stated, fails: with the two bare kings the game is over
    (insufficient material), yet White has five king moves. *)
Lemma bare_kings_terminal_with_moves :
  ~ (moveGen Table.kings_only = [] <-> isTerminal Table.kings_only = true).
Proof.
  intros [_ H]. specialize (H eq_refl). discriminate H.
Qed.

(** C5, as amended.  [isTerminal] is the engine's game-over answer, which is
    decided by the outcomes that end a game by themselves: a state is
    terminal if and only if the engine reports checkmate, stalemate,
    insufficient material, the seventy-five-move rule or fivefold
    repetition. *)
Theorem isTerminal_is_game_over (E : RulesEngine) (law : game_over_law E)
    (state : State E) :
  isTerminal state = is_game_over E (board state) /\
  (isTerminal state = true <->
   is_checkmate E (board state) = true \/
   is_stalemate E (board state) = true \/
   is_insufficient_material E (board state) = true \/
   is_seventyfive_moves E (board state) = true \/
   is_fivefold_repetition E (board state) = true).
Proof.
  split; [reflexivity|].
  unfold isTerminal. rewrite law, !orb_true_iff. tauto.
Qed.

Lemma isTerminal_is_game_over_witness :
  game_over_law Table.engine /\
  isTerminal Table.kings_only = true /\ isTerminal Table.rook_stale = false.
Proof.
  split; [exact Table_game_over|]. split.
  - apply (proj2 (isTerminal_is_game_over Table.engine Table_game_over
                    Table.kings_only)).
    right; right; left; reflexivity.
  - reflexivity.
Defined.

(** C5, as stated, fails: with king and rook against king at halfmove clock
    100 a draw can be claimed, and the game is not over. *)
Lemma claimable_draw_not_terminal :
  ~ (isTerminal Table.rook_stale = true <->
     is_checkmate Table.engine (board Table.rook_stale) = true \/
     is_stalemate Table.engine (board Table.rook_stale) = true \/
     is_insufficient_material Table.engine (board Table.rook_stale) = true \/
     can_claim_draw Table.engine (board Table.rook_stale) = true).
Proof.
  intros [_ H].
  assert (Hterm : isTerminal Table.rook_stale = true)
    by (apply H; right; right; right; reflexivity).
  discriminate Hterm.
Qed.

(** C6, as amended.  The score depends on the board configuration and on
    whether a draw can be claimed: when the engine's other answers are
    determined by the configuration, two states with the same configuration
    and the same answer to the draw claim have the same score. *)
Theorem evaluate_configuration (E : RulesEngine)
    (determined : configuration_determined E) (s1 s2 : State E) :
  epd E (board s1) = epd E (board s2) ->
  can_claim_draw E (board s1) = can_claim_draw E (board s2) ->
  evaluate s1 = evaluate s2.
Proof.
  intros Hepd Hclaim.
  destruct (determined _ _ Hepd)
    as (Hmate & Hturn & Hstale & Hins & Hpm & Hat & Hking & Hatt & Hw & Hb).
  unfold evaluate. rewrite Hmate, Hturn, Hstale, Hins, Hclaim.
  destruct (is_checkmate E (board s2)); [reflexivity|].
  destruct (is_stalemate E (board s2) || is_insufficient_material E (board s2)
            || can_claim_draw E (board s2)); [reflexivity|].
  f_equal. unfold heuristic, center_squares. cbn [fold_left].
  unfold center_step. rewrite Hpm, Hw, Hb, !Hking, !Hat.
  destruct (king E (board s2) WHITE), (king E (board s2) BLACK);
    rewrite ?Hatt; reflexivity.
Qed.

Lemma evaluate_configuration_witness :
  fen Table.engine (board Table.rook_fresh)
  <> fen Table.engine (board Table.rook_aged) /\
  evaluate Table.rook_fresh = evaluate Table.rook_aged.
Proof.
  split; [discriminate|].
  apply (evaluate_configuration Table.engine Table_determined); reflexivity.
Defined.

(** C6, as stated, fails: the same placement, side to move and rights score
    6.5 at halfmove clock 0 and 0 at halfmove clock 100, where a draw can be
    claimed. *)
Lemma evaluate_depends_on_clock :
  ~ (epd Table.engine (board Table.rook_fresh)
     = epd Table.engine (board Table.rook_stale) ->
     evaluate Table.rook_fresh = evaluate Table.rook_stale).
Proof.
  intros H. specialize (H eq_refl). vm_compute in H. discriminate H.
Qed.

(** C7, as amended.  Two states are equal exactly when their FEN strings are
    equal, and the hash is the hash of that string, so that equal states
    have equal hashes.  The FEN string of a board is its configuration
    followed by the halfmove clock and the move number, so two states are
    equal exactly when they have the same configuration and the same two
    counters: with the same configuration they are equal only when the
    counters agree as well. *)
Theorem State_eq_fen (E : RulesEngine) (hash : string -> Z)
    (halfmove_clock fullmove_number : Board E -> Z) (s1 s2 : State E) :
  fen_joined E halfmove_clock fullmove_number (board s1) ->
  fen_joined E halfmove_clock fullmove_number (board s2) ->
  (State_eq s1 s2 = true <-> fen E (board s1) = fen E (board s2)) /\
  State_hash hash s1 = hash (fen E (board s1)) /\
  (State_eq s1 s2 = true -> State_hash hash s1 = State_hash hash s2) /\
  (State_eq s1 s2 = true <->
   epd E (board s1) = epd E (board s2) /\
   halfmove_clock (board s1) = halfmove_clock (board s2) /\
   fullmove_number (board s1) = fullmove_number (board s2)) /\
  (epd E (board s1) = epd E (board s2) ->
   (State_eq s1 s2 = true <->
    halfmove_clock (board s1) = halfmove_clock (board s2) /\
    fullmove_number (board s1) = fullmove_number (board s2))).
Proof.
  intros H1 H2.
  assert (Heq : State_eq s1 s2 = true <->
                epd E (board s1) = epd E (board s2) /\
                halfmove_clock (board s1) = halfmove_clock (board s2) /\
                fullmove_number (board s1) = fullmove_number (board s2)).
  { unfold State_eq. rewrite String.eqb_eq, H1, H2. apply fen_fields. }
  split; [apply String.eqb_eq|].
  split; [reflexivity|].
  split.
  - unfold State_eq, State_hash. intros H.
    apply String.eqb_eq in H. rewrite H. reflexivity.
  - split; [exact Heq|]. intros Hepd. rewrite Heq. tauto.
Qed.

Lemma State_eq_fen_witness :
  fen_joined Table.engine Table.t_halfmove_clock Table.t_fullmove_number
    (board Table.rook_fresh) /\
  fen_joined Table.engine Table.t_halfmove_clock Table.t_fullmove_number
    (board Table.rook_stale) /\
  (State_eq Table.rook_fresh Table.rook_stale = true <->
   Table.t_halfmove_clock (board Table.rook_fresh)
   = Table.t_halfmove_clock (board Table.rook_stale) /\
   Table.t_fullmove_number (board Table.rook_fresh)
   = Table.t_fullmove_number (board Table.rook_stale)).
Proof.
  split; [reflexivity|]. split; [reflexivity|].
  apply (proj2 (proj2 (proj2 (proj2
           (State_eq_fen Table.engine (fun s => Z.of_nat (String.length s))
              Table.t_halfmove_clock Table.t_fullmove_number
              Table.rook_fresh Table.rook_stale eq_refl eq_refl))))).
  reflexivity.
Defined.

(** C7, as stated, fails: the same board configuration reached with
    different move counters gives two states that are not equal. *)
Lemma same_configuration_not_equal :
  ~ (epd Table.engine (board Table.rook_fresh)
     = epd Table.engine (board Table.rook_stale) ->
     State_eq Table.rook_fresh Table.rook_stale = true).
Proof.
  intros H. specialize (H eq_refl). vm_compute in H. discriminate H.
Qed.



(** C9.  On a terminal state, or when [depth] equals [maxDepth], the search
    returns the evaluation of the state and no move, whatever [alpha], [beta]
    and the side are; in particular at depth 0 with [maxDepth] 0. *)
Theorem minimax_base_case (E : RulesEngine) (fuel : nat) (state : State E)
    (depth : Z) (alpha beta : pynum) (maximizingPlayer : bool) (maxDepth : Z) :
  (isTerminal state = true \/ depth = maxDepth ->
   minimax (S fuel) state depth alpha beta maximizingPlayer maxDepth
   = Some (evaluate state, None)) /\
  minimax (S fuel) state 0 alpha beta maximizingPlayer 0
  = Some (evaluate state, None).
Proof.
  split.
  - intros [Hterm| ->]; simpl.
    + rewrite Hterm. reflexivity.
    + rewrite Z.eqb_refl, orb_true_r. reflexivity.
  - simpl. rewrite orb_true_r. reflexivity.
Qed.

Lemma minimax_base_case_witness :
  minimax 1 Toy.white_mated 0 neg_inf pos_inf false 3
  = Some (evaluate Toy.white_mated, None) /\
  minimax 1 Toy.root 2 neg_inf pos_inf true 2
  = Some (evaluate Toy.root, None).
Proof.
  split.
  - apply (proj1 (minimax_base_case Toy.engine 0 Toy.white_mated 0 neg_inf
                    pos_inf false 3)).
    left. reflexivity.
  - apply (proj1 (minimax_base_case Toy.engine 0 Toy.root 2 neg_inf pos_inf
                    true 2)).
    right. reflexivity.
Defined.

(** C10.  From an unfinished state with at least one successor and
    [depth < maxDepth] the search returns a move, whatever [alpha] and
    [beta] are.  The first successor is searched with the bounds passed in
    and returns a finite score, which is beyond the infinite initial best,
    so it is recorded as the best move before the first test for a cut: when
    that test cuts, the first successor's score and move are the result.  In
    every case the move returned is the move of a successor, returned with
    the score the search gave for that successor; no move is returned only
    when there is no successor.  The board has 64 squares and the engine
    reports every position without a legal move as over, so that below the
    state no unfinished position has an empty successor list. *)
Theorem minimax_returns_move (E : RulesEngine) (bounded : bounded_engine E)
    (over : no_moves_is_over E) (state : State E) (depth : Z)
    (alpha beta : pynum) (maximizingPlayer : bool) (maxDepth : Z) (fuel : nat) :
  isTerminal state = false -> depth < maxDepth -> moveGen state <> [] ->
  (Z.to_nat (maxDepth - depth) <= fuel)%nat ->
  (forall child a b, In child (moveGen state) ->
     exists v m,
       minimax fuel child (depth + 1) a b (negb maximizingPlayer) maxDepth
       = Some (v, m) /\ is_finite v) /\
  (exists first rest e0 m0,
     moveGen state = first :: rest /\
     minimax fuel first (depth + 1) alpha beta (negb maximizingPlayer)
       maxDepth = Some (e0, m0) /\
     is_finite e0 /\
     (if maximizingPlayer then py_gt e0 neg_inf else py_lt e0 pos_inf)
     = true /\
     ((if maximizingPlayer then py_ge (py_max alpha e0) beta
       else py_ge alpha (py_min beta e0)) = true ->
      minimax (S fuel) state depth alpha beta maximizingPlayer maxDepth
      = Some (e0, Some (peek E (board first))))) /\
  (exists v move child a b m,
     minimax (S fuel) state depth alpha beta maximizingPlayer maxDepth
     = Some (v, Some move) /\
     is_finite v /\
     In child (moveGen state) /\
     move = peek E (board child) /\
     minimax fuel child (depth + 1) a b (negb maximizingPlayer) maxDepth
     = Some (v, m)) /\
  (forall v,
     minimax (S fuel) state depth alpha beta maximizingPlayer maxDepth
     <> Some (v, None)).
Proof.
  intros Hterm Hdepth Hsucc Hfuel.
  assert (Hne : (depth =? maxDepth) = false) by (apply Z.eqb_neq; lia).
  assert (Hchild : forall (child : State E) a b,
             exists v m,
               minimax fuel child (depth + 1) a b (negb maximizingPlayer)
                 maxDepth = Some (v, m) /\ is_finite v).
  { intros child a b.
    destruct (minimax_progress bounded over fuel child (depth + 1) a b
                (negb maximizingPlayer) maxDepth) as (v & m & Hr & Hv & _);
      [lia | lia |].
    exists v, m. auto. }
  assert (Hroot : exists v move,
             minimax (S fuel) state depth alpha beta maximizingPlayer maxDepth
             = Some (v, Some move) /\ is_finite v).
  { simpl. rewrite Hterm, Hne. cbn [orb].
    destruct maximizingPlayer; cbn [negb] in Hchild.
    - rewrite max_loop_side.
      destruct (side_loop_progress py_gt py_ge neg_inf
                  (fun e He => py_gt_of_plt _ _ (proj1 He))
                  (fun child a b =>
                     minimax fuel child (depth + 1) a b false maxDepth)
                  (moveGen state) neg_inf None alpha beta)
        as (v & m & Hr & Hv & Hm).
      + intros c _ a b. apply Hchild.
      + left. auto.
      + destruct m as [move|]; [|congruence]. exists v, move. auto.
    - rewrite min_loop_side.
      destruct (side_loop_progress py_lt (fun bound other => py_ge other bound)
                  pos_inf
                  (fun e He => py_lt_of_plt _ _ (proj2 He))
                  (fun child b a =>
                     minimax fuel child (depth + 1) a b true maxDepth)
                  (moveGen state) pos_inf None beta alpha)
        as (v & m & Hr & Hv & Hm).
      + intros c _ a b. apply Hchild.
      + left. auto.
      + destruct m as [move|]; [|congruence]. exists v, move. auto. }
  split; [intros child a b _; apply Hchild|].
  split.
  - destruct (moveGen state) as [|first rest] eqn:Hmoves; [congruence|].
    destruct (Hchild first alpha beta) as (e0 & m0 & Hr0 & He0).
    exists first, rest, e0, m0.
    split; [reflexivity|]. split; [exact Hr0|]. split; [exact He0|].
    pose proof (py_gt_of_plt _ _ (proj1 He0)) as Hgt.
    pose proof (py_lt_of_plt _ _ (proj2 He0)) as Hlt.
    split; [destruct maximizingPlayer; assumption|].
    intros Hcut. simpl. rewrite Hterm, Hne, Hmoves. cbn [orb].
    destruct maximizingPlayer; cbn [negb] in Hr0;
      cbn [max_loop min_loop]; rewrite Hr0.
    + rewrite Hgt, Hcut. reflexivity.
    + rewrite Hlt, Hcut. reflexivity.
  - destruct Hroot as (v & move & Hr & Hv). split.
    + destruct (minimax_move_origin fuel state depth alpha beta
                  maximizingPlayer maxDepth v move Hr)
        as (c & a & b & m & Hin & Hc & Hm).
      exists v, move, c, a, b, m. auto.
    + intros v' H. rewrite Hr in H. discriminate H.
Qed.

Lemma minimax_returns_move_witness :
  bounded_engine Toy.engine /\ no_moves_is_over Toy.engine /\
  (exists (first : State Toy.engine) rest e0 m0,
     moveGen Toy.root = first :: rest /\
     minimax 2 first 1 (PyInt 5) (PyInt 1) false 2 = Some (e0, m0) /\
     is_finite e0 /\
     py_gt e0 neg_inf = true /\
     (py_ge (py_max (PyInt 5) e0) (PyInt 1) = true ->
      minimax 3 Toy.root 0 (PyInt 5) (PyInt 1) true 2
      = Some (e0, Some (peek Toy.engine (board first))))) /\
  (exists v move (child : State Toy.engine) a b m,
     minimax 3 Toy.root 0 (PyInt 5) (PyInt 1) true 2 = Some (v, Some move) /\
     is_finite v /\
     In child (moveGen Toy.root) /\
     move = peek Toy.engine (board child) /\
     minimax 2 child 1 a b false 2 = Some (v, m)).
Proof.
  split; [exact Toy_bounded|]. split; [exact Toy_over|].
  destruct (minimax_returns_move Toy.engine Toy_bounded Toy_over Toy.root 0
              (PyInt 5) (PyInt 1) true 2 2)
    as (_ & Hfirst & Hmove & _);
    [reflexivity | lia | discriminate | simpl; lia |].
  split; [exact Hfirst | exact Hmove].
Defined.

(** * Further properties of the search *)

(** ** Termination and the role of the fuel *)

Section Fuel.

Context {E : RulesEngine}.

Lemma side_loop_total (better cutoff : pynum -> pynum -> bool)
    (rec : State E -> pynum -> pynum -> option (result E)) :
  forall cs M bm bound other,
    (forall c, In c cs -> forall a b, exists r, rec c a b = Some r) ->
    exists r, side_loop better cutoff rec cs M bm bound other = Some r.
Proof.
  induction cs as [|c cs IH]; intros M bm bound other Hrec; simpl.
  - eauto.
  - destruct (Hrec c (or_introl eq_refl) bound other) as [[e me] ->].
    assert (Hrest : forall c', In c' cs ->
              forall a b, exists r, rec c' a b = Some r)
      by (intros c' Hin; apply Hrec; right; exact Hin).
    destruct (better e M); destruct (cutoff _ other); eauto.
Qed.

Lemma minimax_total :
  forall fuel (s : State E) d alpha beta side D,
    d <= D -> (Z.to_nat (D - d) < fuel)%nat ->
    exists r, minimax fuel s d alpha beta side D = Some r.
Proof.
  induction fuel as [|fuel IH]; intros s d alpha beta side D Hd Hfuel; [lia|].
  simpl. destruct (isTerminal s || (d =? D)) eqn:Hbase; [eauto|].
  apply orb_false_elim in Hbase. destruct Hbase as [_ Hne].
  apply Z.eqb_neq in Hne.
  destruct side.
  - rewrite max_loop_side. apply side_loop_total.
    intros c _ a b. apply IH; lia.
  - rewrite min_loop_side. apply side_loop_total.
    intros c _ a b. apply IH; lia.
Qed.

Lemma side_loop_more_fuel (better cutoff : pynum -> pynum -> bool)
    (rec1 rec2 : State E -> pynum -> pynum -> option (result E)) :
  (forall c a b r, rec1 c a b = Some r -> rec2 c a b = Some r) ->
  forall cs M bm bound other r,
    side_loop better cutoff rec1 cs M bm bound other = Some r ->
    side_loop better cutoff rec2 cs M bm bound other = Some r.
Proof.
  intros Hrec. induction cs as [|c cs IH]; intros M bm bound other r H;
    simpl in *; [exact H|].
  destruct (rec1 c bound other) as [[e me]|] eqn:H1; [|discriminate].
  rewrite (Hrec _ _ _ _ H1).
  destruct (better e M); destruct (cutoff _ other); auto.
Qed.

Lemma minimax_more_fuel :
  forall fuel fuel' (s : State E) d alpha beta side D r,
    (fuel <= fuel')%nat ->
    minimax fuel s d alpha beta side D = Some r ->
    minimax fuel' s d alpha beta side D = Some r.
Proof.
  induction fuel as [|fuel IH]; intros fuel' s d alpha beta side D r Hle H;
    [discriminate|].
  destruct fuel' as [|fuel']; [lia|].
  simpl in *. destruct (isTerminal s || (d =? D)); [exact H|].
  destruct side.
  - rewrite max_loop_side in *.
    eapply side_loop_more_fuel; [|exact H].
    intros c a b r' Hr. apply (IH fuel'); [lia | exact Hr].
  - rewrite min_loop_side in *.
    eapply side_loop_more_fuel; [|exact H].
    intros c a b r' Hr. apply (IH fuel'); [lia | exact Hr].
Qed.

End Fuel.

(** X1.  A call with [depth <= maxDepth] returns after at most
    [maxDepth - depth] nested calls, for every engine and whatever [alpha]
    and [beta] are (a NaN included); and a call that has returned returns the
    same result under every larger bound on the nesting. *)
Theorem minimax_terminates (E : RulesEngine) (fuel : nat) (state : State E)
    (depth : Z) (alpha beta : pynum) (maximizingPlayer : bool) (maxDepth : Z) :
  (depth <= maxDepth -> (Z.to_nat (maxDepth - depth) < fuel)%nat ->
   exists r,
     minimax fuel state depth alpha beta maximizingPlayer maxDepth = Some r) /\
  (forall fuel' r,
      (fuel <= fuel')%nat ->
      minimax fuel state depth alpha beta maximizingPlayer maxDepth = Some r ->
      minimax fuel' state depth alpha beta maximizingPlayer maxDepth = Some r).
Proof.
  split.
  - apply minimax_total.
  - intros fuel' r. apply minimax_more_fuel.
Qed.

Lemma minimax_terminates_witness :
  exists r,
    minimax 4 Toy.root 0 (PyFloat S754_nan) (PyInt 7) false 3 = Some r.
Proof.
  apply (proj1 (minimax_terminates Toy.engine 4 Toy.root 0 (PyFloat S754_nan)
                  (PyInt 7) false 3)); [lia | simpl; lia].
Defined.

(** ** The window *)

(** X2.  Inside any window [alpha < beta] the pruned search is sound with
    respect to the unpruned one: a score it returns below [beta] is an upper
    bound of the unpruned score, a score above [alpha] a lower bound, and a
    score strictly inside the window is the unpruned score, returned with the
    unpruned move. *)
Theorem pruning_window (E : RulesEngine) (bounded : bounded_engine E)
    (fuel : nat) (state : State E) (depth : Z) (alpha beta : pynum)
    (maximizingPlayer : bool) (maxDepth : Z) (v : pynum)
    (m : option (Move E)) :
  is_number alpha -> is_number beta -> plt alpha beta ->
  minimax_full fuel state depth maximizingPlayer maxDepth = Some (v, m) ->
  exists v' m',
    minimax fuel state depth alpha beta maximizingPlayer maxDepth
    = Some (v', m') /\
    (plt v' beta -> ple v v') /\
    (plt alpha v' -> ple v' v) /\
    (plt alpha v' -> plt v' beta -> v' = v /\ m' = m).
Proof.
  intros Ha Hb Hab H.
  destruct (minimax_window bounded fuel state depth maximizingPlayer maxDepth
              v m H) as [_ Hw].
  destruct (Hw alpha beta Ha Hb Hab) as (v' & m' & Hr & _ & H1 & H2 & H3).
  exists v', m'. auto.
Qed.

Lemma pruning_window_witness :
  bounded_engine Toy.engine /\
  exists v' m',
    minimax 3 Toy.root 0 (PyInt 8) (PyInt 9) true 2 = Some (v', m') /\
    (plt v' (PyInt 9) ->
     ple (PyFloat (S754_finite false 7937594343240499 (-50))) v').
Proof.
  split; [exact Toy_bounded|].
  destruct (pruning_window Toy.engine Toy_bounded 3 Toy.root 0 (PyInt 8)
              (PyInt 9) true 2
              (PyFloat (S754_finite false 7937594343240499 (-50))) (Some 2))
    as (v' & m' & Hr & H1 & _);
    [discriminate | discriminate | reflexivity | vm_compute; reflexivity |].
  exists v', m'. auto.
Defined.

(** X3.  Started from the full window at [depth <= maxDepth], the pruned
    search returns exactly the result of the unpruned search, the move
    included: pruning changes neither the score nor the move played.  The
    board has 64 squares and a position without a legal move is over. *)
Theorem pruning_keeps_move (E : RulesEngine) (bounded : bounded_engine E)
    (over : no_moves_is_over E) (fuel : nat) (state : State E) (depth : Z)
    (maximizingPlayer : bool) (maxDepth : Z) :
  depth <= maxDepth -> (Z.to_nat (maxDepth - depth) < fuel)%nat ->
  exists r,
    minimax_full fuel state depth maximizingPlayer maxDepth = Some r /\
    minimax fuel state depth neg_inf pos_inf maximizingPlayer maxDepth = Some r.
Proof.
  intros Hd Hfuel.
  destruct (minimax_full_total fuel state depth maximizingPlayer maxDepth
              Hd Hfuel) as [[v m] H].
  destruct (minimax_root bounded fuel state depth maximizingPlayer maxDepth
              v m H) as (m' & Hr & Hm).
  destruct (minimax_progress bounded over fuel state depth neg_inf pos_inf
              maximizingPlayer maxDepth Hd Hfuel) as (v2 & m2 & Hr2 & Hv2 & _).
  rewrite Hr in Hr2. injection Hr2 as <- <-.
  exists (v, m). rewrite (Hm Hv2) in Hr. auto.
Qed.

Lemma pruning_keeps_move_witness :
  bounded_engine Toy.engine /\ no_moves_is_over Toy.engine /\
  exists r,
    minimax_full 4 Toy.root 0 false 3 = Some r /\
    minimax 4 Toy.root 0 neg_inf pos_inf false 3 = Some r.
Proof.
  split; [exact Toy_bounded|]. split; [exact Toy_over|].
  apply (pruning_keeps_move Toy.engine Toy_bounded Toy_over 4 Toy.root 0
           false 3); [lia | simpl; lia].
Defined.

(** ** The move returned *)

Section Moves.

Context {E : RulesEngine}.

Lemma side_loop_move (better cutoff : pynum -> pynum -> bool)
    (rec : State E -> pynum -> pynum -> option (result E)) :
  forall cs M bm bound other v mv,
    side_loop better cutoff rec cs M bm bound other = Some (v, Some mv) ->
    bm = Some mv \/ exists c, In c cs /\ mv = peek E (board c).
Proof.
  induction cs as [|c cs IH]; intros M bm bound other v mv H; simpl in H.
  - injection H as _ ->. left. reflexivity.
  - destruct (rec c bound other) as [[e me]|]; [|discriminate].
    assert (Hstep : forall M' bm',
              (if better e M then (e, Some (peek E (board c))) else (M, bm))
              = (M', bm') ->
              bm' = Some mv ->
              bm = Some mv \/ exists c', In c' (c :: cs) /\ mv = peek E (board c')).
    { intros M' bm' Heq Hbm. destruct (better e M); injection Heq as <- <-.
      - injection Hbm as <-. right. exists c. split; [left|]; reflexivity.
      - left. exact Hbm. }
    destruct (if better e M then (e, Some (peek E (board c))) else (M, bm))
      as [M' bm'] eqn:Heq.
    destruct (cutoff _ other).
    + injection H as _ Hbm. exact (Hstep M' bm' eq_refl Hbm).
    + destruct (IH _ _ _ _ _ _ H) as [Hbm|(c' & Hin & Hpeek)].
      * exact (Hstep M' bm' eq_refl Hbm).
      * right. exists c'. split; [right; exact Hin | exact Hpeek].
Qed.

Lemma minimax_move_child :
  forall fuel (s : State E) d alpha beta side D v mv,
    minimax fuel s d alpha beta side D = Some (v, Some mv) ->
    exists c, In c (moveGen s) /\ mv = peek E (board c).
Proof.
  intros [|fuel] s d alpha beta side D v mv H; [discriminate|].
  simpl in H. destruct (isTerminal s || (d =? D)); [discriminate|].
  destruct side.
  - rewrite max_loop_side in H.
    destruct (side_loop_move _ _ _ _ _ _ _ _ _ _ H) as [Hbm|Hc];
      [discriminate | exact Hc].
  - rewrite min_loop_side in H.
    destruct (side_loop_move _ _ _ _ _ _ _ _ _ _ H) as [Hbm|Hc];
      [discriminate | exact Hc].
Qed.

Lemma minimax_move_in_legal (peeks : peek_after_push E) :
  forall fuel (s : State E) d alpha beta side D v mv,
    minimax fuel s d alpha beta side D = Some (v, Some mv) ->
    In mv (legal_moves E (board s)).
Proof.
  intros fuel s d alpha beta side D v mv H.
  destruct (minimax_move_child fuel s d alpha beta side D v mv H)
    as (c & Hin & ->).
  unfold moveGen in Hin. apply in_map_iff in Hin.
  destruct Hin as (m0 & <- & Hm0). cbn [board].
  rewrite (peeks _ _ Hm0). exact Hm0.
Qed.

End Moves.

(** X4.  A move returned by the search is a legal move of the state it was
    called on, whatever the bounds, the side and the depth are ([peek]
    returns the move just pushed); and on a terminal state or at
    [depth = maxDepth] no move is returned. *)
Theorem minimax_move_legal (E : RulesEngine) (peeks : peek_after_push E)
    (fuel : nat) (state : State E) (depth : Z) (alpha beta : pynum)
    (maximizingPlayer : bool) (maxDepth : Z) (v : pynum) (move : Move E) :
  minimax fuel state depth alpha beta maximizingPlayer maxDepth
  = Some (v, Some move) ->
  In move (legal_moves E (board state)) /\
  isTerminal state = false /\ depth <> maxDepth.
Proof.
  intros H. split.
  - exact (minimax_move_in_legal peeks fuel state depth alpha beta
             maximizingPlayer maxDepth v move H).
  - destruct fuel as [|fuel]; [discriminate|]. simpl in H.
    destruct (isTerminal state || (depth =? maxDepth)) eqn:Hbase;
      [discriminate|].
    apply orb_false_elim in Hbase. destruct Hbase as [Hterm Hne].
    apply Z.eqb_neq in Hne. auto.
Qed.

Lemma minimax_move_legal_witness :
  peek_after_push Toy.engine /\
  In 2 (legal_moves Toy.engine (board Toy.root)).
Proof.
  split; [exact Toy_peeks|].
  apply (minimax_move_legal Toy.engine Toy_peeks 3 Toy.root 0 neg_inf pos_inf
           true 2 (PyFloat (S754_finite false 7937594343240499 (-50))) 2).
  vm_compute. reflexivity.
Defined.

(** X5.  When the state has exactly one legal move, the search returns that
    move together with the score its successor returned, whatever the bounds
    are.  The board has 64 squares, a position without a legal move is over
    and [peek] returns the move just pushed. *)
Theorem single_move_is_returned (E : RulesEngine)
    (bounded : bounded_engine E) (over : no_moves_is_over E)
    (peeks : peek_after_push E) (fuel : nat) (state : State E) (depth : Z)
    (alpha beta : pynum) (maximizingPlayer : bool) (maxDepth : Z)
    (move : Move E) :
  legal_moves E (board state) = [move] ->
  isTerminal state = false -> depth < maxDepth ->
  (Z.to_nat (maxDepth - depth) <= fuel)%nat ->
  exists e me,
    minimax fuel (@Build_State E (push E (board state) move)) (depth + 1)
      alpha beta (negb maximizingPlayer) maxDepth = Some (e, me) /\
    minimax (S fuel) state depth alpha beta maximizingPlayer maxDepth
    = Some (e, Some move).
Proof.
  intros Hmoves Hterm Hdepth Hfuel.
  set (child := @Build_State E (push E (board state) move)).
  destruct (minimax_progress bounded over fuel child (depth + 1) alpha beta
              (negb maximizingPlayer) maxDepth) as (e & me & Hr & He & _);
    [lia | lia |].
  exists e, me. split; [exact Hr|].
  assert (Hne : (depth =? maxDepth) = false) by (apply Z.eqb_neq; lia).
  assert (Hpeek : peek E (board child) = move).
  { apply peeks. rewrite Hmoves. left. reflexivity. }
  simpl. rewrite Hterm, Hne. cbn [orb]. unfold moveGen. rewrite Hmoves.
  cbn [map]. fold child.
  destruct maximizingPlayer; cbn [negb] in Hr; cbn [max_loop min_loop];
    rewrite Hr, Hpeek.
  - rewrite (py_gt_of_plt _ _ (proj1 He)).
    destruct (py_ge (py_max alpha e) beta); reflexivity.
  - rewrite (py_lt_of_plt _ _ (proj2 He)).
    destruct (py_ge alpha (py_min beta e)); reflexivity.
Qed.

Lemma single_move_is_returned_witness :
  exists e me,
    minimax 1 (@Build_State Toy.engine (push Toy.engine (Toy.A1, WHITE) 0)) 3
      (PyInt 3) (PyInt 2) false 3 = Some (e, me) /\
    minimax 2 (@Build_State Toy.engine (Toy.A1, WHITE)) 2 (PyInt 3) (PyInt 2)
      true 3 = Some (e, Some 0).
Proof.
  apply (single_move_is_returned Toy.engine Toy_bounded Toy_over Toy_peeks 1
           (@Build_State Toy.engine (Toy.A1, WHITE)) 2 (PyInt 3) (PyInt 2)
           true 3 0); [reflexivity | reflexivity | lia | simpl; lia].
Defined.

(** ** The value of a node is the best value of its children *)

Section BestChild.

Context {E : RulesEngine}.

Variable better : pynum -> pynum -> bool.
Variable lt : pynum -> pynum -> Prop.
Variable le : pynum -> pynum -> Prop.

Hypothesis better_true : forall e m, better e m = true -> lt m e.
Hypothesis better_false :
  forall e m, is_number e -> is_number m -> better e m = false -> le e m.
Hypothesis le_refl : forall x, is_number x -> le x x.
Hypothesis lt_le : forall x y, lt x y -> le x y.
Hypothesis lt_le_trans : forall x y z, lt x y -> le y z -> lt x z.
Hypothesis le_lt_trans : forall x y z, le x y -> lt y z -> lt x z.

Variable recf : State E -> option (result E).
Variable score : State E -> pynum.

Lemma side_loop_full_best :
  forall cs M b v bm,
    is_number M ->
    (forall c, In c cs ->
       is_number (score c) /\ exists m, recf c = Some (score c, m)) ->
    side_loop_full better recf cs M b = Some (v, bm) ->
    (v = M /\ bm = b /\ forall c, In c cs -> le (score c) M) \/
    (exists i c,
        nth_error cs i = Some c /\ v = score c /\
        bm = Some (peek E (board c)) /\ lt M v /\
        (forall c', In c' cs -> le (score c') v) /\
        (forall j c', (j < i)%nat -> nth_error cs j = Some c' ->
                      lt (score c') v)).
Proof.
  induction cs as [|c cs IH]; intros M b v bm HM Hcs H; simpl in H.
  - injection H as <- <-. left. repeat split. intros c [].
  - destruct (Hcs c (or_introl eq_refl)) as [Hsc [mc Hc]]. rewrite Hc in H.
    assert (Hrest : forall c', In c' cs ->
              is_number (score c') /\ exists m, recf c' = Some (score c', m))
      by (intros c' Hin; apply Hcs; right; exact Hin).
    destruct (better (score c) M) eqn:Hgt.
    + pose proof (better_true _ _ Hgt) as Hlt.
      destruct (IH _ _ _ _ Hsc Hrest H)
        as [(-> & -> & Hall)|(i & c1 & Hn & -> & -> & Hlt1 & Hall & Hbefore)].
      * right. exists 0%nat, c. repeat split; trivial.
        -- intros c' [<-|Hin]; [apply le_refl, Hsc | apply Hall, Hin].
        -- intros j c' Hj. lia.
      * right. exists (S i), c1. repeat split; trivial.
        -- exact (lt_le_trans _ _ _ Hlt (lt_le _ _ Hlt1)).
        -- intros c' [<-|Hin]; [apply lt_le, Hlt1 | apply Hall, Hin].
        -- intros [|j] c' Hj Hnj; simpl in Hnj.
           ++ injection Hnj as <-. exact Hlt1.
           ++ apply (Hbefore j c'); [lia | exact Hnj].
    + pose proof (better_false _ _ Hsc HM Hgt) as Hle.
      destruct (IH _ _ _ _ HM Hrest H)
        as [(-> & -> & Hall)|(i & c1 & Hn & -> & -> & Hlt1 & Hall & Hbefore)].
      * left. repeat split.
        intros c' [<-|Hin]; [exact Hle | apply Hall, Hin].
      * right. exists (S i), c1. repeat split; trivial.
        -- intros c' [<-|Hin];
             [exact (lt_le _ _ (le_lt_trans _ _ _ Hle Hlt1))
             | apply Hall, Hin].
        -- intros [|j] c' Hj Hnj; simpl in Hnj.
           ++ injection Hnj as <-. exact (le_lt_trans _ _ _ Hle Hlt1).
           ++ apply (Hbefore j c'); [lia | exact Hnj].
Qed.

End BestChild.

Section NodeValue.

Context {E : RulesEngine}.

Hypothesis bounded : bounded_engine E.

(** The children of a node searched with the full window, when the fuel
    suffices for the node. *)
Lemma children_values (fuel : nat) (s : State E) (d D : Z) (side : bool) :
  d < D -> (Z.to_nat (D - d) <= fuel)%nat ->
  forall c : State E, exists vc mc mc',
    minimax_full fuel c (d + 1) side D = Some (vc, mc) /\
    minimax fuel c (d + 1) neg_inf pos_inf side D = Some (vc, mc') /\
    is_number vc.
Proof.
  intros Hd Hfuel c.
  destruct (minimax_full_total fuel c (d + 1) side D) as [[vc mc] Hc];
    [lia | lia |].
  destruct (minimax_root bounded fuel c (d + 1) side D vc mc Hc)
    as (mc' & Hr & _).
  exists vc, mc, mc'. repeat split; trivial.
  exact (proj1 (minimax_window bounded fuel c (d + 1) side D vc mc Hc)).
Qed.

Lemma full_value_of_node (fuel : nat) (s : State E) (d D : Z) (side : bool)
    (v : pynum) (m : option (Move E)) :
  d < D -> (Z.to_nat (D - d) <= fuel)%nat ->
  minimax (S fuel) s d neg_inf pos_inf side D = Some (v, m) ->
  exists mf, minimax_full (S fuel) s d side D = Some (v, mf).
Proof.
  intros Hd Hfuel H.
  destruct (minimax_full_total (S fuel) s d side D) as [[vf mf] Hf];
    [lia | lia |].
  destruct (minimax_root bounded (S fuel) s d side D vf mf Hf)
    as (m' & Hr & _).
  rewrite Hr in H. injection H as <- <-. exists mf. exact Hf.
Qed.

End NodeValue.

(** X6.  At a MAX node searched with the full window the returned score is
    the maximum of the scores the search returns for the successors (each
    searched with the full window as a MIN node): no successor scores more,
    and when there is a successor one of them scores exactly as much. *)
Theorem max_node_value (E : RulesEngine) (bounded : bounded_engine E)
    (fuel : nat) (state : State E) (depth maxDepth : Z) (v : pynum)
    (m : option (Move E)) :
  isTerminal state = false -> depth < maxDepth ->
  (Z.to_nat (maxDepth - depth) <= fuel)%nat ->
  minimax (S fuel) state depth neg_inf pos_inf true maxDepth = Some (v, m) ->
  (forall c, In c (moveGen state) ->
     exists vc mc,
       minimax fuel c (depth + 1) neg_inf pos_inf false maxDepth
       = Some (vc, mc) /\ ple vc v) /\
  (moveGen state <> [] ->
   exists c mc,
     In c (moveGen state) /\
     minimax fuel c (depth + 1) neg_inf pos_inf false maxDepth = Some (v, mc)).
Proof.
  intros Hterm Hdepth Hfuel H.
  destruct (full_value_of_node bounded fuel state depth maxDepth true v m
              Hdepth Hfuel H) as [mf Hf].
  rewrite minimax_full_max_node in Hf by (trivial; lia).
  rewrite max_loop_full_side in Hf.
  set (recf := fun child : State E =>
                 minimax_full fuel child (depth + 1) false maxDepth) in Hf.
  set (score := fun c => match recf c with
                         | Some (x, _) => x
                         | None => neg_inf
                         end).
  assert (Hscore : forall c,
             exists mc mc',
               recf c = Some (score c, mc) /\
               minimax fuel c (depth + 1) neg_inf pos_inf false maxDepth
               = Some (score c, mc') /\ is_number (score c)).
  { intros c.
    destruct (children_values bounded fuel state depth maxDepth false
                Hdepth Hfuel c) as (vc & mc & mc' & Hc & Hr & Hn).
    unfold score, recf. rewrite Hc. eauto. }
  destruct (side_loop_full_best py_gt plt ple py_gt_true py_gt_false ple_refl
              plt_ple plt_ple_trans ple_plt_trans recf score
              (moveGen state) neg_inf None v mf neg_inf_number)
    as [(-> & _ & Hall)|(i & c & Hn & -> & _ & _ & Hall & _)]; trivial.
  - intros c _. destruct (Hscore c) as (mc & _ & Hc & _ & Hn). eauto.
  - split.
    + intros c Hin. destruct (Hscore c) as (_ & mc' & _ & Hr & _).
      exists (score c), mc'. split; [exact Hr | apply Hall, Hin].
    + intros Hne. destruct (moveGen state) as [|c cs]; [congruence|].
      destruct (Hscore c) as (_ & mc' & _ & Hr & _).
      exists c, mc'. split; [left; reflexivity|].
      rewrite (ple_neg_inf _ (Hall c (or_introl eq_refl))) in Hr. exact Hr.
  - split.
    + intros c' Hin. destruct (Hscore c') as (_ & mc' & _ & Hr & _).
      exists (score c'), mc'. split; [exact Hr | apply Hall, Hin].
    + intros _. destruct (Hscore c) as (_ & mc' & _ & Hr & _).
      exists c, mc'. split; [exact (nth_error_In _ _ Hn) | exact Hr].
Qed.

Lemma max_node_value_witness :
  bounded_engine Toy.engine /\
  forall c, In c (moveGen Toy.root) ->
    exists vc mc,
      minimax 2 c 1 neg_inf pos_inf false 2 = Some (vc, mc) /\
      ple vc (PyFloat (S754_finite false 7937594343240499 (-50))).
Proof.
  split; [exact Toy_bounded|].
  apply (proj1 (max_node_value Toy.engine Toy_bounded 2 Toy.root 0 2
                  (PyFloat (S754_finite false 7937594343240499 (-50)))
                  (Some 2) eq_refl ltac:(lia) ltac:(simpl; lia)
                  ltac:(vm_compute; reflexivity))).
Defined.

(** X7.  At a MIN node searched with the full window the returned score is
    the minimum of the scores the search returns for the successors (each
    searched with the full window as a MAX node). *)
Theorem min_node_value (E : RulesEngine) (bounded : bounded_engine E)
    (fuel : nat) (state : State E) (depth maxDepth : Z) (v : pynum)
    (m : option (Move E)) :
  isTerminal state = false -> depth < maxDepth ->
  (Z.to_nat (maxDepth - depth) <= fuel)%nat ->
  minimax (S fuel) state depth neg_inf pos_inf false maxDepth = Some (v, m) ->
  (forall c, In c (moveGen state) ->
     exists vc mc,
       minimax fuel c (depth + 1) neg_inf pos_inf true maxDepth
       = Some (vc, mc) /\ ple v vc) /\
  (moveGen state <> [] ->
   exists c mc,
     In c (moveGen state) /\
     minimax fuel c (depth + 1) neg_inf pos_inf true maxDepth = Some (v, mc)).
Proof.
  intros Hterm Hdepth Hfuel H.
  destruct (full_value_of_node bounded fuel state depth maxDepth false v m
              Hdepth Hfuel H) as [mf Hf].
  assert (Hne : (depth =? maxDepth) = false) by (apply Z.eqb_neq; lia).
  simpl in Hf. rewrite Hterm, Hne in Hf. cbn [orb] in Hf.
  rewrite min_loop_full_side in Hf.
  set (recf := fun child : State E =>
                 minimax_full fuel child (depth + 1) true maxDepth) in Hf.
  set (score := fun c => match recf c with
                         | Some (x, _) => x
                         | None => pos_inf
                         end).
  assert (Hscore : forall c,
             exists mc mc',
               recf c = Some (score c, mc) /\
               minimax fuel c (depth + 1) neg_inf pos_inf true maxDepth
               = Some (score c, mc') /\ is_number (score c)).
  { intros c.
    destruct (children_values bounded fuel state depth maxDepth true
                Hdepth Hfuel c) as (vc & mc & mc' & Hc & Hr & Hn).
    unfold score, recf. rewrite Hc. eauto. }
  destruct (side_loop_full_best py_lt (fun x y => plt y x)
              (fun x y => ple y x) py_lt_true py_lt_false ple_refl
              (fun x y => plt_ple y x)
              (fun x y z H1 H2 => ple_plt_trans z y x H2 H1)
              (fun x y z H1 H2 => plt_ple_trans z y x H2 H1)
              recf score (moveGen state) pos_inf None v mf pos_inf_number)
    as [(-> & _ & Hall)|(i & c & Hn & -> & _ & _ & Hall & _)]; trivial.
  - intros c _. destruct (Hscore c) as (mc & _ & Hc & _ & Hn). eauto.
  - split.
    + intros c Hin. destruct (Hscore c) as (_ & mc' & _ & Hr & _).
      exists (score c), mc'. split; [exact Hr | apply Hall, Hin].
    + intros Hnil. destruct (moveGen state) as [|c cs]; [congruence|].
      destruct (Hscore c) as (_ & mc' & _ & Hr & _).
      exists c, mc'. split; [left; reflexivity|].
      rewrite (pos_inf_ple _ (Hall c (or_introl eq_refl))) in Hr. exact Hr.
  - split.
    + intros c' Hin. destruct (Hscore c') as (_ & mc' & _ & Hr & _).
      exists (score c'), mc'. split; [exact Hr | apply Hall, Hin].
    + intros _. destruct (Hscore c) as (_ & mc' & _ & Hr & _).
      exists c, mc'. split; [exact (nth_error_In _ _ Hn) | exact Hr].
Qed.

Lemma min_node_value_witness :
  bounded_engine Toy.engine /\
  exists c mc,
    In c (moveGen (@Build_State Toy.engine (Toy.A, BLACK))) /\
    minimax 1 c 2 neg_inf pos_inf true 2
    = Some (PyFloat (S754_finite false 6867989431740006 (-51)), mc).
Proof.
  split; [exact Toy_bounded|].
  apply (proj2 (min_node_value Toy.engine Toy_bounded 1
                  (@Build_State Toy.engine (Toy.A, BLACK)) 1 2
                  (PyFloat (S754_finite false 6867989431740006 (-51)))
                  (Some 0) eq_refl ltac:(lia) ltac:(simpl; lia)
                  ltac:(vm_compute; reflexivity))).
  discriminate.
Defined.

(** X8.  On a 64-square board the evaluation is a finite number, never a NaN
    or an infinity: one of the three integers of a finished game, or a float
    of absolute value below [2^150]. *)
Theorem evaluate_is_finite (E : RulesEngine) (bounded : bounded_engine E)
    (state : State E) :
  is_finite (evaluate state) /\
  (evaluate state = PyInt (-10000) \/ evaluate state = PyInt 10000 \/
   evaluate state = PyInt 0 \/
   exists f, evaluate state = PyFloat f /\ fmag 150 f).
Proof.
  split; [apply evaluate_finite, bounded|].
  unfold evaluate.
  destruct (is_checkmate E (board state)).
  - destruct (Bool.eqb (turn E (board state)) WHITE); auto.
  - destruct (is_stalemate E (board state)
              || is_insufficient_material E (board state)
              || can_claim_draw E (board state)); auto.
    right; right; right. eexists. split; [reflexivity|].
    apply heuristic_mag, bounded.
Qed.

Lemma evaluate_is_finite_witness :
  bounded_engine Toy.engine /\ is_finite (evaluate Toy.root).
Proof.
  split; [exact Toy_bounded|].
  apply (proj1 (evaluate_is_finite Toy.engine Toy_bounded Toy.root)).
Defined.

(** ** The game loop *)

Lemma Toy_game_over : game_over_law Toy.engine.
Proof.
  intros [n t]. cbn.
  destruct (Toy.no_moves (n, t)), (Toy.is_limbo n); reflexivity.
Qed.

Lemma Toy_membership : legal_membership ToyConsole.console.
Proof.
  intros b m. cbn. rewrite existsb_exists. split.
  - intros (x & Hin & Heq). apply Z.eqb_eq in Heq. subst x. exact Hin.
  - intros Hin. exists m. split; [exact Hin | apply Z.eqb_refl].
Qed.

Lemma Toy_moves_true : legal_moves_true ToyConsole.console.
Proof. intros b m _. reflexivity. Qed.

Lemma Toy_claimable : automatic_draws_claimable Toy.engine.
Proof. intros b [H|H]; discriminate H. Qed.

Section GameFacts.

Context {E : RulesEngine}.

Variable C : Console E.

Lemma human_turn_step (membership : legal_membership C) (s : State E)
    (line : string) (f : flow) (s' : State E) (out : list output) :
  human_turn C s line = (f, s', out) -> at_most_one_move s s'.
Proof.
  unfold human_turn. intros H.
  destruct (String.eqb (lower line) "quit").
  - injection H as _ <- _. left. reflexivity.
  - destruct (from_uci C line) as [move|].
    + destruct (is_legal C (board s) move) eqn:Hlegal.
      * injection H as _ <- _. right. exists move.
        split; [apply membership, Hlegal | reflexivity].
      * injection H as _ <- _. left. reflexivity.
    + injection H as _ <- _. left. reflexivity.
Qed.

Lemma ai_turn_step (peeks : peek_after_push E) (s : State E)
    (seconds : string) (f : flow) (s' : State E) (out : list output) :
  ai_turn C s seconds = Some (f, s', out) -> at_most_one_move s s'.
Proof.
  unfold ai_turn. intros H.
  destruct (minimax _ s 0 neg_inf pos_inf false game_maxDepth)
    as [[v best]|] eqn:Hsearch; [|discriminate].
  set (said := [Print "AI is thinking...";
                Print ("AI thought for " ++ seconds ++ " seconds")%string])
    in H.
  assert (Hfallback :
            forall lines : list output,
              match legal_moves E (board s) with
              | move :: _ =>
                  (Continue, @Build_State E (push E (board s) move),
                   (lines
                    ++ [Print ("AI plays (fallback): " ++ uci C move)%string])
                     %list)
              | [] => (Break, s, lines)
              end = (f, s', out) -> at_most_one_move s s').
  { intros lines Hf. destruct (legal_moves E (board s)) as [|move rest] eqn:Hl.
    - injection Hf as _ <- _. left. reflexivity.
    - injection Hf as _ <- _. right. exists move.
      split; [rewrite Hl; left; reflexivity | reflexivity]. }
  destruct best as [move|].
  - destruct (move_bool C move).
    + injection H as _ <- _. right. exists move. split; [|reflexivity].
      exact (minimax_move_in_legal peeks _ _ _ _ _ _ _ _ _ Hsearch).
    + injection H as H. exact (Hfallback said H).
  - injection H as H. exact (Hfallback said H).
Qed.

Lemma loop_body_step (membership : legal_membership C)
    (peeks : peek_after_push E) (t : tick) (s : State E) (f : flow)
    (s' : State E) (out : list output) :
  loop_body C t s = Some (f, s', out) -> at_most_one_move s s'.
Proof.
  unfold loop_body. intros H.
  destruct (quit_clicked t).
  - injection H as _ <- _. left. reflexivity.
  - destruct (Bool.eqb (turn E (board s)) WHITE).
    + destruct (human_turn C s (typed t)) as [[f1 s1] out1] eqn:Hh.
      injection H as _ <- _.
      exact (human_turn_step membership _ _ _ _ _ Hh).
    + destruct (ai_turn C s (elapsed t)) as [[[f1 s1] out1]|] eqn:Ha;
        [|discriminate].
      injection H as _ <- _. exact (ai_turn_step peeks _ _ _ _ _ Ha).
Qed.

Lemma played_after (s s' s'' : State E) :
  at_most_one_move s s' -> played s' s'' -> played s s''.
Proof.
  intros [->|(m & Hin & ->)] Hp; [exact Hp|].
  exact (played_move s s'' m Hin Hp).
Qed.

(** The search of the AI at a state that is not over returns a legal
    move. *)
Lemma search_move_at_root (bounded : bounded_engine E)
    (over : no_moves_is_over E) (peeks : peek_after_push E) (s : State E) :
  isTerminal s = false ->
  exists v move,
    minimax 4 s 0 neg_inf pos_inf false 3 = Some (v, Some move) /\
    In move (legal_moves E (board s)).
Proof.
  intros Hterm.
  destruct (minimax_progress bounded over 4 s 0 neg_inf pos_inf false 3)
    as (v & m & Hr & _ & Hm); [lia | simpl; lia |].
  destruct m as [move|]; [|exfalso; apply (Hm Hterm); [lia | reflexivity]].
  exists v, move. split; [exact Hr|].
  exact (minimax_move_in_legal peeks _ _ _ _ _ _ _ _ _ Hr).
Qed.

Lemma loop_body_total (t : tick) (s : State E) :
  exists r, loop_body C t s = Some r.
Proof.
  unfold loop_body. destruct (quit_clicked t); [eauto|].
  destruct (Bool.eqb (turn E (board s)) WHITE).
  - destruct (human_turn C s (typed t)) as [[f s1] out]. eauto.
  - unfold ai_turn.
    destruct (minimax_total (S (Z.to_nat game_maxDepth)) s 0 neg_inf pos_inf
                false game_maxDepth) as [[v best] Hr];
      [unfold game_maxDepth; lia | unfold game_maxDepth; simpl; lia |].
    rewrite Hr. destruct best as [move|].
    + destruct (move_bool C move); [eauto|].
      destruct (legal_moves E (board s)); eauto.
    + destruct (legal_moves E (board s)); eauto.
Qed.

End GameFacts.

(** X9.  The loop of [play_game] only ever plays legal moves: the state it
    ends with is reached from the state it starts with by legal moves alone,
    whatever the player types and whatever the search returns ([in
    legal_moves] is membership in the list of legal moves and [peek] returns
    the move just pushed). *)
Theorem game_plays_legal_moves (E : RulesEngine) (C : Console E)
    (membership : legal_membership C) (peeks : peek_after_push E)
    (ticks : list tick) (s s' : State E) (out : list output) :
  game_loop C ticks s = Some (s', out) -> played s s'.
Proof.
  revert s s' out.
  induction ticks as [|t rest IH]; intros s s' out H; simpl in H.
  - destruct (isTerminal s); [|discriminate].
    injection H as <- _. constructor.
  - destruct (isTerminal s).
    + injection H as <- _. constructor.
    + destruct (loop_body C t s) as [[[f s1] out1]|] eqn:Hbody;
        [|discriminate].
      pose proof (loop_body_step C membership peeks _ _ _ _ _ Hbody) as Hstep.
      destruct f.
      * injection H as <- _. apply (played_after _ _ _ Hstep). constructor.
      * destruct (game_loop C rest s1) as [[s2 out2]|] eqn:Hrest;
          [|discriminate].
        injection H as <- _.
        exact (played_after _ _ _ Hstep (IH _ _ _ Hrest)).
Qed.

Lemma game_plays_legal_moves_witness :
  legal_membership ToyConsole.console /\ peek_after_push Toy.engine /\
  played Toy.root Toy.black_mated.
Proof.
  split; [exact Toy_membership|]. split; [exact Toy_peeks|].
  eapply (game_plays_legal_moves Toy.engine ToyConsole.console Toy_membership
            Toy_peeks
            [{| quit_clicked := false; typed := "junk"; elapsed := "0.00" |};
             {| quit_clicked := false; typed := "1"; elapsed := "0.00" |};
             {| quit_clicked := false; typed := ""; elapsed := "0.01" |};
             {| quit_clicked := false; typed := "0"; elapsed := "0.00" |}]
            Toy.root Toy.black_mated).
  vm_compute. reflexivity.
Defined.

(** X10.  On its turn at a state that is not over the AI always plays the
    move the search returned, a legal move: the fallback to the first legal
    move and the [break] without a move are never taken.  The board has 64
    squares, a position without a legal move is over, [peek] returns the move
    just pushed and a legal move is true. *)
Theorem ai_plays_search_move (E : RulesEngine) (C : Console E)
    (bounded : bounded_engine E) (over : no_moves_is_over E)
    (peeks : peek_after_push E) (true_moves : legal_moves_true C)
    (current_state : State E) (seconds : string) :
  isTerminal current_state = false ->
  exists eval_score best_move,
    minimax 4 current_state 0 neg_inf pos_inf false 3
    = Some (eval_score, Some best_move) /\
    In best_move (legal_moves E (board current_state)) /\
    ai_turn C current_state seconds
    = Some (Continue,
            @Build_State E (push E (board current_state) best_move),
            [Print "AI is thinking...";
             Print ("AI thought for " ++ seconds ++ " seconds")%string;
             Print ("AI plays: " ++ uci C best_move)%string]).
Proof.
  intros Hterm.
  destruct (search_move_at_root bounded over peeks current_state Hterm)
    as (v & move & Hr & Hin).
  exists v, move. split; [exact Hr|]. split; [exact Hin|].
  unfold ai_turn. change (S (Z.to_nat game_maxDepth)) with 4%nat.
  change game_maxDepth with 3. rewrite Hr, (true_moves _ _ Hin). reflexivity.
Qed.

Lemma ai_plays_search_move_witness :
  exists eval_score best_move,
    minimax 4 (@Build_State Toy.engine (Toy.B, BLACK)) 0 neg_inf pos_inf false
      3 = Some (eval_score, Some best_move) /\
    In best_move (legal_moves Toy.engine (Toy.B, BLACK)) /\
    ai_turn ToyConsole.console (@Build_State Toy.engine (Toy.B, BLACK)) "0.01"
    = Some (Continue,
            @Build_State Toy.engine (push Toy.engine (Toy.B, BLACK) best_move),
            [Print "AI is thinking...";
             Print ("AI thought for " ++ "0.01" ++ " seconds")%string;
             Print ("AI plays: " ++ uci ToyConsole.console best_move)%string]).
Proof.
  apply (ai_plays_search_move Toy.engine ToyConsole.console Toy_bounded
           Toy_over Toy_peeks Toy_moves_true
           (@Build_State Toy.engine (Toy.B, BLACK)) "0.01").
  reflexivity.
Defined.

(** X11.  The loop of [play_game] ends only when the game is over or the
    player quits: when no tick carries a request to quit and no line typed is
    ['quit'] in any case of letters, the state the loop ends with is
    terminal.  The board has 64 squares, a position without a legal move is
    over, [peek] returns the move just pushed and a legal move is true. *)
Theorem loop_ends_when_over (E : RulesEngine) (C : Console E)
    (bounded : bounded_engine E) (over : no_moves_is_over E)
    (peeks : peek_after_push E) (true_moves : legal_moves_true C)
    (ticks : list tick) (s s' : State E) (out : list output) :
  (forall t, In t ticks ->
     quit_clicked t = false /\ lower (typed t) <> "quit"%string) ->
  game_loop C ticks s = Some (s', out) -> isTerminal s' = true.
Proof.
  revert s s' out.
  induction ticks as [|t rest IH]; intros s s' out Hquit H; simpl in H.
  - destruct (isTerminal s) eqn:Hterm; [|discriminate].
    injection H as <- _. exact Hterm.
  - destruct (isTerminal s) eqn:Hterm.
    + injection H as <- _. exact Hterm.
    + destruct (Hquit t (or_introl eq_refl)) as [Hclick Htyped].
      apply String.eqb_neq in Htyped.
      assert (Hnext : exists s1 out1,
                 loop_body C t s = Some (Continue, s1, out1)).
      { unfold loop_body. rewrite Hclick.
        destruct (Bool.eqb (turn E (board s)) WHITE).
        - unfold human_turn. rewrite Htyped.
          destruct (from_uci C (typed t)) as [move|]; [|eauto].
          destruct (is_legal C (board s) move); eauto.
        - destruct (search_move_at_root bounded over peeks s Hterm)
            as (v & move & Hr & Hin).
          unfold ai_turn. change (S (Z.to_nat game_maxDepth)) with 4%nat.
          change game_maxDepth with 3.
          rewrite Hr, (true_moves _ _ Hin). eauto. }
      destruct Hnext as (s1 & out1 & Hbody). rewrite Hbody in H.
      destruct (game_loop C rest s1) as [[s2 out2]|] eqn:Hrest;
        [|discriminate].
      injection H as <- _.
      apply (IH s1 s2 out2); [|exact Hrest].
      intros t' Hin. apply Hquit. right. exact Hin.
Qed.

Lemma loop_ends_when_over_witness :
  isTerminal Toy.black_mated = true.
Proof.
  eapply (loop_ends_when_over Toy.engine ToyConsole.console Toy_bounded
            Toy_over Toy_peeks Toy_moves_true
            [{| quit_clicked := false; typed := "Quit it"; elapsed := "" |};
             {| quit_clicked := false; typed := "1"; elapsed := "0.00" |};
             {| quit_clicked := false; typed := ""; elapsed := "0.01" |};
             {| quit_clicked := false; typed := "0"; elapsed := "0.00" |}]
            Toy.root Toy.black_mated).
  - intros t Hin. simpl in Hin.
    destruct Hin as [<-|[<-|[<-|[<-|[]]]]]; split;
      first [reflexivity | discriminate].
  - vm_compute. reflexivity.
Defined.

(** X12.  A request to quit reported by the display always ends the loop:
    the search of every AI turn before it returns, so the loop reaches the
    tick that carries the request, or ends earlier. *)
Theorem quit_ends_the_loop (E : RulesEngine) (C : Console E)
    (ticks : list tick) (t : tick) (s : State E) :
  In t ticks -> quit_clicked t = true ->
  exists s' out, game_loop C ticks s = Some (s', out).
Proof.
  revert s.
  induction ticks as [|t0 rest IH]; intros s Hin Hquit; [destruct Hin|].
  simpl. destruct (isTerminal s); [eauto|].
  destruct Hin as [->|Hin].
  - unfold loop_body. rewrite Hquit. eauto.
  - destruct (loop_body_total C t0 s) as [[[f s1] out1] Hbody].
    rewrite Hbody. destruct f; [eauto|].
    destruct (IH s1 Hin Hquit) as (s2 & out2 & Hrest). rewrite Hrest. eauto.
Qed.

Lemma quit_ends_the_loop_witness :
  exists s' out,
    game_loop ToyConsole.console
      [{| quit_clicked := false; typed := "2"; elapsed := "" |};
       {| quit_clicked := false; typed := ""; elapsed := "0.02" |};
       {| quit_clicked := true; typed := ""; elapsed := "" |}] Toy.root
    = Some (s', out).
Proof.
  apply (quit_ends_the_loop Toy.engine ToyConsole.console _
           {| quit_clicked := true; typed := ""; elapsed := "" |} Toy.root).
  - right. right. left. reflexivity.
  - reflexivity.
Defined.

(** X13.  After a game that is over [play_game] always announces a result:
    the report prints exactly one line, and on a checkmate it names the side
    that is not to move as the winner.  [is_game_over] is decided by
    checkmate, stalemate, insufficient material, the seventy-five-move rule
    and fivefold repetition, and under the last two a draw can be claimed. *)
Theorem terminal_state_has_verdict (E : RulesEngine)
    (law : game_over_law E) (claims : automatic_draws_claimable E)
    (current_state : State E) :
  isTerminal current_state = true ->
  exists line,
    verdict current_state = [Print line] /\
    (is_checkmate E (board current_state) = true ->
     line = if turn E (board current_state) then "Checkmate! Black wins!"%string
            else "Checkmate! White wins!"%string).
Proof.
  unfold isTerminal, verdict. rewrite law. intros Hover.
  destruct (is_checkmate E (board current_state)).
  - eexists. split; [reflexivity|]. intros _.
    destruct (turn E (board current_state)); reflexivity.
  - destruct (is_stalemate E (board current_state));
      [eexists; split; [reflexivity | discriminate]|].
    destruct (is_insufficient_material E (board current_state));
      [eexists; split; [reflexivity | discriminate]|].
    cbn [orb] in Hover. apply orb_true_iff in Hover.
    rewrite (claims _ Hover). eexists; split; [reflexivity | discriminate].
Qed.

Lemma terminal_state_has_verdict_witness :
  exists line,
    verdict Toy.black_mated = [Print line] /\
    (is_checkmate Toy.engine (board Toy.black_mated) = true ->
     line = if turn Toy.engine (board Toy.black_mated)
            then "Checkmate! Black wins!"%string
            else "Checkmate! White wins!"%string).
Proof.
  apply (terminal_state_has_verdict Toy.engine Toy_game_over Toy_claimable
           Toy.black_mated).
  reflexivity.
Defined.
